(** * Okta to ClickUp group synchronisation

    A shallow embedding of [okta_to_clickup_group_sync.py] and the
    properties of its reconciliation loop.

    The script fetches the Okta groups (with the e-mail addresses of their
    members), the ClickUp user roster and the ClickUp groups, resolves the
    e-mail addresses to ClickUp user ids ([match_users]) and then walks the
    resolved groups, creating the missing ClickUp groups and updating the
    membership of the existing ones ([sync_groups]).

    Conventions of the embedding:
    - a Python [dict] is an insertion-ordered association list with unique
      keys, read and written only through the operations of [Dict];
    - the bodies of the HTTP responses are arguments of the functions that
      decode them; the mutating requests ([requests.post], [requests.put])
      and the log lines are events of a trace, threaded through a state and
      exception monad;
    - [list(set(a) - set(b))] is [elements] of a [gset] difference: a
      duplicate-free list in an order fixed by the set alone. *)

From stdpp Require Import base list strings gmap sorting.
From Stdlib Require Import ZArith.

Open Scope Z_scope.
Open Scope string_scope.
Open Scope list_scope.

(** ** Insertion-ordered dictionaries *)

Module Dict.
Section ops.
Context {K V : Type} `{EqDecision K}.

Definition keys (d : list (K * V)) : list K := d.*1.

(** [d[k]], [None] standing for [KeyError]. *)
Fixpoint get (k : K) (d : list (K * V)) : option V :=
  match d with
  | [] => None
  | (k', v) :: d' => if decide (k = k') then Some v else get k d'
  end.

(** [k in d]. *)
Definition mem (k : K) (d : list (K * V)) : bool :=
  match get k d with Some _ => true | None => false end.

(** [d[k] = v]: an existing key keeps its position, a new key goes last. *)
Fixpoint set (k : K) (v : V) (d : list (K * V)) : list (K * V) :=
  match d with
  | [] => [(k, v)]
  | (k', v') :: d' =>
      if decide (k = k') then (k', v) :: d' else (k', v') :: set k v d'
  end.

(** In-place change of the value stored under [k], as [d[k].append(x)]
    does; nothing happens when the key is missing. *)
Fixpoint alter (f : V → V) (k : K) (d : list (K * V)) : list (K * V) :=
  match d with
  | [] => []
  | (k', v') :: d' =>
      if decide (k = k') then (k', f v') :: d' else (k', v') :: alter f k d'
  end.
End ops.
End Dict.

(** ** Data model *)

Definition UserID := Z.
Definition GroupID := string.

(** An entry of the Okta [/groups] response:
    [okta_group["id"]] and [okta_group["profile"]["name"]]. *)
Record OktaGroup := {
  okta_id : string;
  okta_name : string
}.

(** A member of the ClickUp team: [user["user"]["id"]] and
    [user["user"]["email"]]. *)
Record ClickupUser := {
  user_id : UserID;
  user_email : string
}.

(** A member of a ClickUp group: [member["id"]]. *)
Record ClickupMember := {
  member_id : UserID
}.

(** An entry of [data["groups"]] in the ClickUp [/group] response. *)
Record ClickupGroup := {
  group_id : GroupID;
  group_name : string;
  group_members : list ClickupMember
}.

(** The value stored per name by [get_clickup_groups]:
    [{"id": ..., "members": [...]}]. *)
Record Properties := {
  prop_id : GroupID;
  prop_members : list UserID
}.

#[global] Instance ClickupUser_eq_dec : EqDecision ClickupUser.
Proof. solve_decision. Defined.

#[global] Instance Properties_eq_dec : EqDecision Properties.
Proof. solve_decision. Defined.

(** The module-level settings. *)
Record Config := {
  DRY_RUN : bool;
  DEBUG : bool;
  OKTA_GROUP_PREFIXES : list string;
  CLICKUP_BASE_URL : string;
  CLICKUP_TEAM_ID : string;
  EMAIL_DOMAIN : string
}.

(** ** Strings *)

(** [name.startswith(tuple(prefixes))]. *)
Definition startswith (name : string) (prefixes : list string) : bool :=
  existsb (λ p, String.prefix p name) prefixes.

(** [s.endswith(suffix)]. *)
Definition endswith (s suffix : string) : bool :=
  String.prefix (String.rev suffix) (String.rev s).

(** ** Decoding the fetched data *)

Section fetch.
Variable cfg : Config.

(** [get_okta_groups], lines 91-110. [okta_groups] is the body of the
    [/groups] response and [users_of gid] the e-mail addresses
    [user["profile"]["email"]] of the body of [/groups/{gid}/users]. *)
Definition get_okta_groups (okta_groups : list OktaGroup)
    (users_of : string → list string) : list (string * list string) :=
  foldl (λ group_members okta_group,
    if negb (startswith (okta_name okta_group) (OKTA_GROUP_PREFIXES cfg))
    then group_members
    else
      let group_members := Dict.set (okta_name okta_group) [] group_members in
      let data := users_of (okta_id okta_group) in
      Dict.set (okta_name okta_group)
        (filter (λ email, endswith email (EMAIL_DOMAIN cfg) = true) data)
        group_members)
    [] okta_groups.

(** [get_clickup_groups], lines 136-146. The placeholder of line 140 is
    overwritten by line 141 before anything reads it; it only reserves the
    position of the key, which [Dict.set] does as well. *)
Definition get_clickup_groups (groups : list ClickupGroup)
    : list (string * Properties) :=
  foldl (λ clickup_groups group,
    if startswith (group_name group) (OKTA_GROUP_PREFIXES cfg)
    then
      Dict.set (group_name group)
        {| prop_id := group_id group;
           prop_members := map member_id (group_members group) |}
        clickup_groups
    else clickup_groups)
    [] groups.
End fetch.

(** ** Matching e-mail addresses to ClickUp users *)

(** Lines 156-159: the body of the innermost loop of [match_users]. *)
Definition match_user (group email : string) (user : ClickupUser)
    (group_members : list (string * list UserID)) : list (string * list UserID) :=
  if String.eqb (user_email user) email then
    let group_members :=
      if negb (Dict.mem group group_members)
      then Dict.set group [] group_members
      else group_members in
    Dict.alter (λ ids, ids ++ [user_id user]) group group_members
  else group_members.

(** [match_users], lines 152-163, on the decoded Okta groups [okta] and the
    ClickUp roster [clickup]. *)
Definition match_users (okta : list (string * list string))
    (clickup : list ClickupUser) : list (string * list UserID) :=
  foldl (λ group_members '(group, emails),
    foldl (λ group_members email,
      foldl (λ group_members user, match_user group email user group_members)
        group_members clickup)
      group_members emails)
    [] okta.

(** ** Requests, responses and the log *)

Inductive Method := POST | PUT.

(** The value of [payload["members"]] in an update: a dictionary with an
    optional ["add"] and an optional ["rem"] key. *)
Record Delta := {
  delta_add : option (list UserID);
  delta_rem : option (list UserID)
}.

Inductive Payload :=
| CreatePayload (name : string) (members : list UserID)
    (* [{"name": okta_group, "members": okta_members}] *)
| UpdatePayload (members : option Delta).
    (* [{}] or [{"members": {...}}] *)

Record Request := {
  req_method : Method;
  req_url : string;
  req_json : Payload
}.

#[global] Instance Method_eq_dec : EqDecision Method.
Proof. solve_decision. Defined.

#[global] Instance Delta_eq_dec : EqDecision Delta.
Proof. solve_decision. Defined.

#[global] Instance Payload_eq_dec : EqDecision Payload.
Proof. solve_decision. Defined.

#[global] Instance Request_eq_dec : EqDecision Request.
Proof. solve_decision. Defined.

(** What [log_response] reads of a response: [response.status_code] and
    [response.json()], [None] when the body does not decode. *)
Record Response := {
  status_code : Z;
  json : option string
}.

Inductive Level := INFO | DEBUG_LEVEL.

(** The log lines of [sync_groups] and [log_response], by format string. *)
Inductive Message :=
| Separator
| CreateGroupMsg (okta_group : string)
| UpdateGroupMsg (clickup_group : string)
| NoChangesMsg (clickup_group : string)
| MissingUsersMsg (add : list UserID)
| RemovedUsersMsg (rem : list UserID)
| PayloadMsg (payload : Payload)
| RequestUrlMsg (url : string)
| RequestMethodMsg (method : Method)
| StatusCodeMsg (code : Z)
| JsonMsg (body : string)
| DryRunMsg.

Inductive Event :=
| Log (level : Level) (msg : Message)
| Sent (request : Request).

Inductive Exn := RequestException | JSONDecodeError.

(** The ClickUp side of a mutating request: given what happened so far, the
    request is answered, or raises ([None]). *)
Definition Server := list Event → Request → option Response.

(** ** The trace and exception monad *)

Definition M (A : Type) : Type := list Event → (Exn + A) * list Event.

Definition ret {A} (a : A) : M A := λ tr, (inr a, tr).

Definition bind {A B} (m : M A) (k : A → M B) : M B :=
  λ tr, match m tr with
        | (inl e, tr') => (inl e, tr')
        | (inr a, tr') => k a tr'
        end.

Definition raise {A} (e : Exn) : M A := λ tr, (inl e, tr).

Definition log (level : Level) (msg : Message) : M unit :=
  λ tr, (inr tt, tr ++ [Log level msg]).

Definition send (server : Server) (r : Request) : M Response :=
  λ tr, match server tr r with
        | Some response => (inr response, tr ++ [Sent r])
        | None => (inl RequestException, tr ++ [Sent r])
        end.

#[global] Instance M_ret : MRet M := @ret.
#[global] Instance M_bind : MBind M := λ A B k m, bind m k.

(** [for x in l: body(x)]. *)
Fixpoint for_each {A} (l : list A) (body : A → M unit) : M unit :=
  match l with
  | [] => ret tt
  | x :: l' => body x ;; for_each l' body
  end.

(** [if c: m]. *)
Definition when (c : bool) (m : M unit) : M unit := if c then m else ret tt.

(** The mutating requests of a trace, oldest first. *)
Definition sent (tr : list Event) : list Request :=
  omap (λ e, match e with Sent r => Some r | Log _ _ => None end) tr.

(** The status codes written to the log, oldest first. *)
Definition logged_status (tr : list Event) : list Z :=
  omap (λ e, match e with Log _ (StatusCodeMsg c) => Some c | _ => None end) tr.

(** ** The synchronisation loop *)

(** [list(set(a) - set(b))]. *)
Definition set_diff (a b : list UserID) : list UserID :=
  elements ((list_to_set a : gset Z) ∖ list_to_set b).

Section sync.
Variable cfg : Config.
Variable server : Server.

(** [log_response], lines 60-67; [method] is [response.request.method],
    the method of the request the response answers. *)
Definition log_response (url : string) (method : Method)
    (response : Response) : M unit :=
  log INFO Separator ;;
  log INFO (RequestUrlMsg url) ;;
  log INFO (RequestMethodMsg method) ;;
  log INFO (StatusCodeMsg (status_code response)) ;;
  when (DEBUG cfg)
    match json response with
    | Some body => log DEBUG_LEVEL (JsonMsg body)
    | None => raise JSONDecodeError
    end.

Definition create_url : string :=
  CLICKUP_BASE_URL cfg ++ "/team/" ++ CLICKUP_TEAM_ID cfg ++ "/group".

Definition update_url (gid : GroupID) : string :=
  CLICKUP_BASE_URL cfg ++ "/group/" ++ gid.

(** Lines 197-205: the payload of an update. *)
Definition update_payload (add rem : list UserID) : Payload :=
  let payload := None in
  let payload :=
    if (0 <? length add)%nat
    then Some {| delta_add := Some add; delta_rem := None |}
    else payload in
  let payload :=
    if (0 <? length rem)%nat
    then match payload with
         | Some members =>
             Some {| delta_add := delta_add members; delta_rem := Some rem |}
         | None => Some {| delta_add := None; delta_rem := Some rem |}
         end
    else payload in
  UpdatePayload payload.

(** The loop of [sync_groups], lines 170-225, over the resolved Okta
    groups and the ClickUp groups. The in-place addition of the
    [Content-Type] header (lines 173 and 195) is not part of the events. *)
Definition sync_loop (okta_groups : list (string * list UserID))
    (clickup_groups : list (string * Properties)) : M unit :=
  for_each okta_groups (λ '(okta_group, okta_members),
    when (negb (Dict.mem okta_group clickup_groups))
      (let url := create_url in
       let payload := CreatePayload okta_group okta_members in
       log INFO Separator ;;
       log INFO (CreateGroupMsg okta_group) ;;
       log INFO (PayloadMsg payload) ;;
       if negb (DRY_RUN cfg) then
         response ← send server
           {| req_method := POST; req_url := url; req_json := payload |};
         log_response url POST response
       else
         log INFO (RequestUrlMsg url) ;;
         log INFO DryRunMsg) ;;
    for_each clickup_groups (λ '(clickup_group, properties),
      when (String.eqb okta_group clickup_group)
        (let add := set_diff okta_members (prop_members properties) in
         let rem := set_diff (prop_members properties) okta_members in
         let url := update_url (prop_id properties) in
         let payload := update_payload add rem in
         if (0 <? length add)%nat || (0 <? length rem)%nat then
           log INFO Separator ;;
           log INFO (UpdateGroupMsg clickup_group) ;;
           when (0 <? length add)%nat (log INFO (MissingUsersMsg add)) ;;
           when (0 <? length rem)%nat (log INFO (RemovedUsersMsg rem)) ;;
           log INFO (PayloadMsg payload) ;;
           if negb (DRY_RUN cfg) then
             response ← send server
               {| req_method := PUT; req_url := url; req_json := payload |};
             log_response url PUT response
           else
             log INFO (RequestUrlMsg url) ;;
             log INFO DryRunMsg
         else
           log INFO Separator ;;
           log INFO (NoChangesMsg clickup_group)))).

(** [sync_groups], lines 166-226, on the bodies of the four kinds of
    fetched responses. It returns nothing ([tt] for Python's [None]). *)
Definition sync_groups (okta_groups : list OktaGroup)
    (users_of : string → list string) (clickup_users : list ClickupUser)
    (groups : list ClickupGroup) : M unit :=
  let okta_groups :=
    match_users (get_okta_groups cfg okta_groups users_of) clickup_users in
  let clickup_groups := get_clickup_groups cfg groups in
  sync_loop okta_groups clickup_groups.
End sync.

(** ** The loop as a plan and its execution *)

(** What one pass of the loop decides for a group: a group to create
    (lines 171-175) or a group to update (lines 189-194), with the id in the
    request URL, the name in the log line and the two member lists. *)
Inductive MutationIntent :=
| CreateGroup (name : string) (memberIds : list UserID)
| UpdateGroup (id : GroupID) (name : string) (addIds removeIds : list UserID).

#[global] Instance MutationIntent_eq_dec : EqDecision MutationIntent.
Proof. solve_decision. Defined.

(** A pass either issues a mutation or reports that nothing changes
    (lines 223-225). *)
Inductive Step :=
| Mutate (intent : MutationIntent)
| Unchanged (clickup_group : string).

(** Lines 189-207 and 223: the decision for one ClickUp group. *)
Definition update_steps (okta_group : string) (okta_members : list UserID)
    (entry : string * Properties) : list Step :=
  let '(clickup_group, properties) := entry in
  if String.eqb okta_group clickup_group then
    let add := set_diff okta_members (prop_members properties) in
    let rem := set_diff (prop_members properties) okta_members in
    if (0 <? length add)%nat || (0 <? length rem)%nat
    then [Mutate (UpdateGroup (prop_id properties) clickup_group add rem)]
    else [Unchanged clickup_group]
  else [].

(** One iteration of the outer loop. *)
Definition steps_for (clickup_groups : list (string * Properties))
    (entry : string * list UserID) : list Step :=
  let '(okta_group, okta_members) := entry in
  (if negb (Dict.mem okta_group clickup_groups)
   then [Mutate (CreateGroup okta_group okta_members)] else [])
  ++ flat_map (update_steps okta_group okta_members) clickup_groups.

Definition sync_steps (okta_groups : list (string * list UserID))
    (clickup_groups : list (string * Properties)) : list Step :=
  flat_map (steps_for clickup_groups) okta_groups.

Definition mutations (steps : list Step) : list MutationIntent :=
  omap (λ s, match s with Mutate i => Some i | Unchanged _ => None end) steps.

(** The mutations the loop decides, in the order it decides them. *)
Definition diff (okta_groups : list (string * list UserID))
    (clickup_groups : list (string * Properties)) : list MutationIntent :=
  mutations (sync_steps okta_groups clickup_groups).

Definition intent_name (i : MutationIntent) : string :=
  match i with
  | CreateGroup name _ => name
  | UpdateGroup _ name _ _ => name
  end.

Section execute.
Variable cfg : Config.
Variable server : Server.

(** The request of a mutation. *)
Definition request_of (i : MutationIntent) : Request :=
  match i with
  | CreateGroup name memberIds =>
      {| req_method := POST; req_url := create_url cfg;
         req_json := CreatePayload name memberIds |}
  | UpdateGroup id _ addIds removeIds =>
      {| req_method := PUT; req_url := update_url cfg id;
         req_json := update_payload addIds removeIds |}
  end.

(** The log lines that announce a mutation. *)
Definition announce (i : MutationIntent) : M unit :=
  match i with
  | CreateGroup name memberIds =>
      log INFO Separator ;;
      log INFO (CreateGroupMsg name) ;;
      log INFO (PayloadMsg (CreatePayload name memberIds))
  | UpdateGroup _ name addIds removeIds =>
      log INFO Separator ;;
      log INFO (UpdateGroupMsg name) ;;
      when (0 <? length addIds)%nat (log INFO (MissingUsersMsg addIds)) ;;
      when (0 <? length removeIds)%nat (log INFO (RemovedUsersMsg removeIds)) ;;
      log INFO (PayloadMsg (update_payload addIds removeIds))
  end.

(** The effects of one step. *)
Definition perform (s : Step) : M unit :=
  match s with
  | Mutate i =>
      let r := request_of i in
      announce i ;;
      if negb (DRY_RUN cfg) then
        response ← send server r;
        log_response cfg (req_url r) (req_method r) response
      else
        log INFO (RequestUrlMsg (req_url r)) ;;
        log INFO DryRunMsg
  | Unchanged clickup_group =>
      log INFO Separator ;;
      log INFO (NoChangesMsg clickup_group)
  end.

Definition execute (steps : list Step) : M unit := for_each steps perform.
End execute.

(** The server answers every request, with a body that decodes when
    [log_response] decodes it. *)
Definition answers (cfg : Config) (server : Server) : Prop :=
  ∀ tr r, ∃ response,
    server tr r = Some response ∧
    (DEBUG cfg = true → is_Some (json response)).

(** ** Observations and specifications *)

(** The dry-run notices of a trace. *)
Definition dry_run_notices (tr : list Event) : list unit :=
  omap (λ e, match e with Log _ DryRunMsg => Some () | _ => None end) tr.

(** The ids of the roster entries whose address is [email], in roster
    order: what the loop of lines 155-159 appends for one address. *)
Definition matches (clickup : list ClickupUser) (email : string) : list UserID :=
  user_id <$> filter (λ user, user_email user = email) clickup.

(** What the loops of lines 154-159 append for the addresses of a group. *)
Definition desired_ids (clickup : list ClickupUser) (emails : list string)
    : list UserID :=
  flat_map (matches clickup) emails.

(** A group enters the dictionary with its first matched id. *)
Definition push (group : string) (ids : list UserID)
    (group_members : list (string * list UserID)) : list (string * list UserID) :=
  match ids with
  | [] => group_members
  | _ => group_members ++ [(group, ids)]
  end.

Definition resolved_groups (okta : list (string * list string))
    (clickup : list ClickupUser) : list (string * list UserID) :=
  omap (λ '(group, emails),
    match desired_ids clickup emails with
    | [] => None
    | ids => Some (group, ids)
    end) okta.

(** The mutations a run of [sync_groups] decides on the fetched data. *)
Definition plan (cfg : Config) (okta_groups : list OktaGroup)
    (users_of : string → list string) (clickup_users : list ClickupUser)
    (groups : list ClickupGroup) : list MutationIntent :=
  diff (match_users (get_okta_groups cfg okta_groups users_of) clickup_users)
       (get_clickup_groups cfg groups).

Definition intent_id (i : MutationIntent) : option GroupID :=
  match i with
  | CreateGroup _ _ => None
  | UpdateGroup id _ _ _ => Some id
  end.

(** The diff as the specification words it: per desired name, a creation
    when the name is missing from the existing groups, and otherwise an
    update of the differing members, or nothing. *)
Definition diff_spec (desired : list (string * list UserID))
    (existing : list (string * Properties)) : list MutationIntent :=
  flat_map (λ '(name, wanted),
    match Dict.get name existing with
    | None => [CreateGroup name wanted]
    | Some group =>
        let cur := prop_members group in
        let add := set_diff wanted cur in
        let rem := set_diff cur wanted in
        match add, rem with
        | [], [] => []
        | _, _ => [UpdateGroup (prop_id group) name add rem]
        end
    end) desired.

(** The resolver as the specification words it: the id of the first roster
    entry with the given address. *)
Fixpoint resolve (email : string) (roster : list ClickupUser) : option UserID :=
  match roster with
  | [] => None
  | user :: roster' =>
      if String.eqb (user_email user) email then Some (user_id user)
      else resolve email roster'
  end.

(** Modelled from the spec: the effect of a mutation on the target
    snapshot, which is the work of the ClickUp service and not of the
    script. A creation adds the group under its name, with an id of the
    service's choosing ([fresh]) and the given members; an update changes
    the members of its group, the entry under its name that carries its id,
    removing [removeIds] and adding [addIds]. *)
Definition apply_intent (fresh : string → GroupID)
    (existing : list (string * Properties)) (i : MutationIntent)
    : list (string * Properties) :=
  match i with
  | CreateGroup name memberIds =>
      Dict.set name {| prop_id := fresh name; prop_members := memberIds |}
        existing
  | UpdateGroup id name addIds removeIds =>
      Dict.alter (λ group,
        if decide (prop_id group = id) then
          {| prop_id := prop_id group;
             prop_members :=
               filter (λ x, x ∉ removeIds) (prop_members group) ++ addIds |}
        else group) name existing
  end.

Definition apply_plan (fresh : string → GroupID)
    (intents : list MutationIntent) (existing : list (string * Properties))
    : list (string * Properties) :=
  foldl (apply_intent fresh) existing intents.

(** The members of the group [name] are the wanted ones, as sets. *)
Definition settled (existing : list (string * Properties)) (name : string)
    (wanted : list UserID) : Prop :=
  ∃ group, Dict.get name existing = Some group ∧
    set_diff wanted (prop_members group) = [] ∧
    set_diff (prop_members group) wanted = [].

(** ** Example data *)

Definition ex_cfg (dry_run : bool) : Config :=
  {| DRY_RUN := dry_run; DEBUG := true;
     OKTA_GROUP_PREFIXES := ["eng-"; "ops-"];
     CLICKUP_BASE_URL := "https://clickup.example/api/v2";
     CLICKUP_TEAM_ID := "42";
     EMAIL_DOMAIN := "@co.com" |}.

Definition ex_desired : list (string * list UserID) :=
  [("eng-backend", [11; 12]); ("eng-frontend", [11; 13]); ("ops-core", [14])].

Definition ex_existing : list (string * Properties) :=
  [("eng-frontend", {| prop_id := "g-front"; prop_members := [11; 15] |});
   ("ops-core", {| prop_id := "g-ops"; prop_members := [14] |});
   ("eng-legacy", {| prop_id := "g-legacy"; prop_members := [16] |})].

(** A server that refuses every request with status 500. *)
Definition ex_failing_server : Server :=
  λ _ _, Some {| status_code := 500; json := Some "{'err': 'Internal'}" |}.

(** A server that answers every request with status 200. *)
Definition ex_ok_server : Server :=
  λ _ _, Some {| status_code := 200; json := Some "{}" |}.

(** A server on which the first request raises. *)
Definition ex_unreachable_server : Server := λ _ _, None.

(** The bodies of the four kinds of responses of an example run. *)
Definition ex_okta_groups : list OktaGroup :=
  [{| okta_id := "og1"; okta_name := "eng-backend" |};
   {| okta_id := "og2"; okta_name := "eng-frontend" |};
   {| okta_id := "og3"; okta_name := "ops-core" |};
   {| okta_id := "og4"; okta_name := "sales" |};
   {| okta_id := "og5"; okta_name := "eng-idle" |}].

Definition ex_users_of (gid : string) : list string :=
  if String.eqb gid "og1" then ["a@co.com"; "b@co.com"; "x@other.org"]
  else if String.eqb gid "og2" then ["a@co.com"; "c@co.com"]
  else if String.eqb gid "og3" then ["d@co.com"]
  else if String.eqb gid "og4" then ["e@co.com"]
  else if String.eqb gid "og5" then ["ghost@co.com"]
  else [].

Definition ex_roster : list ClickupUser :=
  [{| user_id := 11; user_email := "a@co.com" |};
   {| user_id := 12; user_email := "b@co.com" |};
   {| user_id := 13; user_email := "c@co.com" |};
   {| user_id := 14; user_email := "d@co.com" |};
   {| user_id := 15; user_email := "e@co.com" |};
   {| user_id := 16; user_email := "f@co.com" |}].

Definition ex_groups : list ClickupGroup :=
  [{| group_id := "g-front"; group_name := "eng-frontend";
      group_members := [{| member_id := 11 |}; {| member_id := 15 |}] |};
   {| group_id := "g-ops"; group_name := "ops-core";
      group_members := [{| member_id := 14 |}] |};
   {| group_id := "g-legacy"; group_name := "eng-legacy";
      group_members := [{| member_id := 16 |}] |};
   {| group_id := "g-mkt"; group_name := "marketing";
      group_members := [{| member_id := 15 |}] |}].

(** ** The settings read at start-up *)

#[global] Instance OktaGroup_eq_dec : EqDecision OktaGroup.
Proof. solve_decision. Defined.

#[global] Instance ClickupMember_eq_dec : EqDecision ClickupMember.
Proof. solve_decision. Defined.

#[global] Instance ClickupGroup_eq_dec : EqDecision ClickupGroup.
Proof. solve_decision. Defined.

(** [s.split(sep)] for a one-character separator. *)
Fixpoint split_on (sep : Ascii.ascii) (s : string) : list string :=
  match s with
  | "" => [""]
  | String c s' =>
      if Ascii.eqb c sep then "" :: split_on sep s'
      else match split_on sep s' with
           | word :: words => String c word :: words
           | [] => [String c ""]
           end
  end.

(** The separator of line 24. *)
Definition comma : Ascii.ascii := Ascii.ascii_of_nat 44.

(** What stops the script before it fetches anything: line 24 calls
    [split] on a missing variable, or line 32 reports a variable. *)
Inductive StartupError :=
| AttributeError
| NameError (env_var : string).

#[global] Instance StartupError_eq_dec : EqDecision StartupError.
Proof. solve_decision. Defined.

(** The variables checked by the loop of lines 30-32, in its order. *)
Definition checked_variables : list string :=
  ["OKTA_BASE_URL"; "OKTA_GROUP_PREFIXES"; "CLICKUP_BASE_URL";
   "CLICKUP_TEAM_ID"; "EMAIL_DOMAIN"].

(** [os.getenv(env_var) is None or os.getenv(env_var) == ""]. *)
Definition unset_or_empty (value : option string) : bool :=
  match value with
  | None => true
  | Some s => String.eqb s ""
  end.

Section startup.
(** [str.strip], which the embedding leaves to the Python library. *)
Variable strip : string → string.
(** [os.getenv], after [load_dotenv()]. *)
Variable getenv : string → option string.

(** Lines 12-32: the settings the synchronisation uses, or the error that
    stops the script. The two API tokens and [OKTA_BASE_URL] only enter the
    requests that fetch, whose answers are arguments here. *)
Definition load_settings : StartupError + Config :=
  match getenv "OKTA_GROUP_PREFIXES" with
  | None => inl AttributeError
  | Some prefixes =>
      let OKTA_GROUP_PREFIXES := strip <$> split_on comma prefixes in
      match List.find (λ env_var, unset_or_empty (getenv env_var))
              checked_variables with
      | Some env_var => inl (NameError env_var)
      | None =>
          inr {| DRY_RUN := false; DEBUG := true;
                 OKTA_GROUP_PREFIXES := OKTA_GROUP_PREFIXES;
                 CLICKUP_BASE_URL := default "" (getenv "CLICKUP_BASE_URL");
                 CLICKUP_TEAM_ID := default "" (getenv "CLICKUP_TEAM_ID");
                 EMAIL_DOMAIN := default "" (getenv "EMAIL_DOMAIN") |}
      end
  end.
End startup.

(** ** Further observations of a trace *)

(** The payloads written to the log (lines 179 and 214), oldest first. *)
Definition logged_payloads (tr : list Event) : list Payload :=
  omap (λ e, match e with Log _ (PayloadMsg p) => Some p | _ => None end) tr.

(** The request URLs written to the log (lines 62, 185 and 220). *)
Definition logged_urls (tr : list Event) : list string :=
  omap (λ e, match e with Log _ (RequestUrlMsg u) => Some u | _ => None end) tr.

(** The groups reported as needing no change (line 225). *)
Definition unchanged_notices (tr : list Event) : list string :=
  omap (λ e, match e with Log _ (NoChangesMsg g) => Some g | _ => None end) tr.

(** A server that gives no usable answer: every request raises, or is
    answered with a body that does not decode while [DEBUG] is on. *)
Definition fails_always (cfg : Config) (server : Server) : Prop :=
  ∀ tr r, server tr r = None ∨
    (DEBUG cfg = true ∧
     ∃ response, server tr r = Some response ∧ json response = None).

(** The loop shared by [get_okta_groups] and [get_clickup_groups]: the
    entries that pass a filter are stored under their name, one after the
    other. *)
Definition collect {A V} (keep : A → bool) (key : A → string) (val : A → V)
    (d : list (string * V)) (l : list A) : list (string * V) :=
  foldl (λ d x, if keep x then Dict.set (key x) (val x) d else d) d l.

(** The addresses [get_okta_groups] stores for an Okta group. *)
Definition okta_emails (cfg : Config) (users_of : string → list string)
    (okta_group : OktaGroup) : list string :=
  filter (λ email, endswith email (EMAIL_DOMAIN cfg) = true)
    (users_of (okta_id okta_group)).

(** The value [get_clickup_groups] stores for a ClickUp group. *)
Definition clickup_properties (group : ClickupGroup) : Properties :=
  {| prop_id := group_id group;
     prop_members := map member_id (group_members group) |}.

(** More example data: an environment, and answers with duplicate names. *)
Definition ex_getenv (env_var : string) : option string :=
  if String.eqb env_var "OKTA_BASE_URL" then Some "https://okta.example/api/v1"
  else if String.eqb env_var "OKTA_GROUP_PREFIXES" then Some "eng-,ops-"
  else if String.eqb env_var "CLICKUP_BASE_URL"
       then Some "https://clickup.example/api/v2"
  else if String.eqb env_var "CLICKUP_TEAM_ID" then Some "42"
  else if String.eqb env_var "EMAIL_DOMAIN" then Some "@co.com"
  else None.

Definition ex_okta_twice : list OktaGroup :=
  [{| okta_id := "og1"; okta_name := "eng-backend" |};
   {| okta_id := "og4"; okta_name := "sales" |};
   {| okta_id := "og2"; okta_name := "eng-backend" |}].

Definition ex_groups_twice : list ClickupGroup :=
  [{| group_id := "g-old"; group_name := "eng-frontend";
      group_members := [{| member_id := 16 |}] |};
   {| group_id := "g-front"; group_name := "eng-frontend";
      group_members := [{| member_id := 11 |}; {| member_id := 15 |}] |}].

(** A server whose answers have a body that does not decode. *)
Definition ex_garbled_server : Server :=
  λ _ _, Some {| status_code := 502; json := None |}.



(** The distinct names of a list, in the order of their first occurrence. *)
Fixpoint first_occurrences (l : list string) : list string :=
  match l with
  | [] => []
  | x :: l' => x :: filter (λ y, y ≠ x) (first_occurrences l')
  end.

(** * Lemmas *)

(** ** Monad and loop lemmas *)

Lemma bind_ext {A B} (m m' : M A) (k k' : A → M B) tr :
  m tr = m' tr → (∀ a tr', k a tr' = k' a tr') →
  bind m k tr = bind m' k' tr.
Proof.
  intros Hm Hk. unfold bind. rewrite Hm.
  destruct (m' tr) as [[e|a] tr']; [done | apply Hk].
Qed.

Lemma bind_assoc {A B C} (m : M A) (k : A → M B) (h : B → M C) tr :
  bind (bind m k) h tr = bind m (λ a, bind (k a) h) tr.
Proof. unfold bind. by destruct (m tr) as [[e|a] tr']. Qed.

Lemma for_each_app {A} (l1 l2 : list A) (body : A → M unit) tr :
  for_each (l1 ++ l2) body tr
  = bind (for_each l1 body) (λ _, for_each l2 body) tr.
Proof.
  revert tr. induction l1 as [|x l1 IH]; intros tr; simpl.
  - done.
  - unfold mbind, M_bind. rewrite bind_assoc.
    apply bind_ext; [done | intros _ tr'; apply IH].
Qed.

Lemma for_each_flat_map {A} (l : list A) (body : A → M unit)
    (f : A → list Step) cfg server :
  (∀ x tr, body x tr = execute cfg server (f x) tr) →
  ∀ tr, for_each l body tr = execute cfg server (flat_map f l) tr.
Proof.
  intros Hbody. induction l as [|x l IH]; intros tr; simpl; [done|].
  unfold execute. rewrite for_each_app. unfold mbind, M_bind.
  apply bind_ext; [apply Hbody | intros _ tr'; apply IH].
Qed.

Lemma update_steps_perform cfg server okta_group okta_members entry tr :
  (let '(clickup_group, properties) := entry in
   when (String.eqb okta_group clickup_group)
     (let add := set_diff okta_members (prop_members properties) in
      let rem := set_diff (prop_members properties) okta_members in
      let url := update_url cfg (prop_id properties) in
      let payload := update_payload add rem in
      if (0 <? length add)%nat || (0 <? length rem)%nat then
        log INFO Separator ;;
        log INFO (UpdateGroupMsg clickup_group) ;;
        when (0 <? length add)%nat (log INFO (MissingUsersMsg add)) ;;
        when (0 <? length rem)%nat (log INFO (RemovedUsersMsg rem)) ;;
        log INFO (PayloadMsg payload) ;;
        if negb (DRY_RUN cfg) then
          response ← send server
            {| req_method := PUT; req_url := url; req_json := payload |};
          log_response cfg url PUT response
        else
          log INFO (RequestUrlMsg url) ;;
          log INFO DryRunMsg
      else
        log INFO Separator ;;
        log INFO (NoChangesMsg clickup_group))) tr
  = execute cfg server (update_steps okta_group okta_members entry) tr.
Proof.
  destruct entry as [clickup_group properties]. unfold update_steps.
  destruct (String.eqb okta_group clickup_group); [|done]. simpl.
  set (add := set_diff okta_members (prop_members properties)).
  set (rem := set_diff (prop_members properties) okta_members).
  unfold execute, for_each, perform, announce, request_of.
  destruct (0 <? length add)%nat eqn:Ha, (0 <? length rem)%nat eqn:Hr; simpl;
    rewrite ?Ha, ?Hr; unfold mbind, M_bind, bind, when, log, ret; simpl;
    destruct (DRY_RUN cfg); simpl; try done;
    destruct (send _ _ _) as [[?|?] ?]; simpl; try done;
    by destruct (log_response _ _ _ _ _) as [[?|[]] ?].
Qed.

(** The loop of [sync_groups] is the execution of the steps it decides. *)
Lemma sync_loop_execute cfg server okta_groups clickup_groups tr :
  sync_loop cfg server okta_groups clickup_groups tr
  = execute cfg server (sync_steps okta_groups clickup_groups) tr.
Proof.
  unfold sync_loop, sync_steps. apply for_each_flat_map.
  intros [okta_group okta_members] tr'. unfold steps_for, execute.
  rewrite for_each_app. unfold mbind, M_bind.
  apply bind_ext.
  - destruct (negb (Dict.mem okta_group clickup_groups)); simpl; [|done].
    unfold mbind, M_bind, bind, log, ret.
    destruct (DRY_RUN cfg); simpl.
    + done.
    + destruct (send _ _ _) as [[?|?] ?]; simpl; [done|].
      by destruct (log_response _ _ _ _ _) as [[?|[]] ?].
  - intros _ tr''. apply for_each_flat_map.
    intros entry tr3. apply update_steps_perform.
Qed.

(** ** Dictionary lemmas *)

Section dict_lemmas.
Context {K V : Type} `{EqDecision K}.
Implicit Types (d : list (K * V)) (k : K) (v : V).

Lemma dict_get_None d k : Dict.get k d = None ↔ k ∉ Dict.keys d.
Proof.
  unfold Dict.keys. induction d as [|[k' v'] d IH]; simpl.
  - split; [intros _; apply not_elem_of_nil | done].
  - rewrite not_elem_of_cons. case_decide; [|tauto].
    split; [done | intros [? _]; done].
Qed.

Lemma dict_mem_true d k : Dict.mem k d = true ↔ k ∈ Dict.keys d.
Proof.
  unfold Dict.mem. destruct (Dict.get k d) eqn:E.
  - split; [intros _|done].
    destruct (decide (k ∈ Dict.keys d)) as [|Hn]; [done|].
    apply dict_get_None in Hn. congruence.
  - apply dict_get_None in E. split; [done | tauto].
Qed.

Lemma dict_mem_false d k : Dict.mem k d = false ↔ k ∉ Dict.keys d.
Proof. rewrite <- dict_mem_true. destruct (Dict.mem k d); naive_solver. Qed.

Lemma dict_get_Some_elem d k v : Dict.get k d = Some v → (k, v) ∈ d.
Proof.
  induction d as [|[k' v'] d IH]; simpl; [done|].
  case_decide; intros E.
  - simplify_eq. left.
  - right. by apply IH.
Qed.

Lemma dict_elem_get d k v :
  NoDup (Dict.keys d) → (k, v) ∈ d → Dict.get k d = Some v.
Proof.
  unfold Dict.keys. induction d as [|[k' v'] d IH]; simpl.
  - intros _ Hin. by apply elem_of_nil in Hin.
  - intros Hnd Hin. apply NoDup_cons in Hnd as [Hk Hnd].
    apply elem_of_cons in Hin as [Heq|Hin].
    + simplify_eq. by rewrite decide_True.
    + rewrite decide_False; [by apply IH|].
      intros ->. apply Hk. apply list_elem_of_fmap. by exists (k', v).
Qed.

Lemma dict_set_fresh d k v : k ∉ Dict.keys d → Dict.set k v d = d ++ [(k, v)].
Proof.
  unfold Dict.keys. induction d as [|[k' v'] d IH]; simpl; [done|].
  rewrite not_elem_of_cons. intros [Hne Hk].
  rewrite decide_False by done. by rewrite IH.
Qed.

Lemma dict_keys_set_mem d k v :
  k ∈ Dict.keys d → Dict.keys (Dict.set k v d) = Dict.keys d.
Proof.
  unfold Dict.keys. induction d as [|[k' v'] d IH]; simpl.
  - intros Hin. by apply elem_of_nil in Hin.
  - intros Hin. case_decide; simpl; [done|].
    apply elem_of_cons in Hin as [?|Hin]; [done|]. f_equal. by apply IH.
Qed.

Lemma dict_keys_alter d k (f : V → V) :
  Dict.keys (Dict.alter f k d) = Dict.keys d.
Proof.
  unfold Dict.keys. induction d as [|[k' v'] d IH]; simpl; [done|].
  case_decide; simpl; [done | f_equal; apply IH].
Qed.

Lemma dict_NoDup_set d k v :
  NoDup (Dict.keys d) → NoDup (Dict.keys (Dict.set k v d)).
Proof.
  intros Hnd. destruct (decide (k ∈ Dict.keys d)) as [Hin|Hin].
  - by rewrite dict_keys_set_mem.
  - rewrite dict_set_fresh by done. unfold Dict.keys in *.
    rewrite fmap_app. simpl. apply NoDup_app. split_and!; [done| |].
    + intros x Hx Hx'. apply list_elem_of_singleton in Hx'. by subst.
    + apply NoDup_singleton.
Qed.

Lemma dict_alter_last d k v (f : V → V) :
  k ∉ Dict.keys d → Dict.alter f k (d ++ [(k, v)]) = d ++ [(k, f v)].
Proof.
  unfold Dict.keys. induction d as [|[k' v'] d IH]; simpl.
  - intros _. by rewrite decide_True.
  - rewrite not_elem_of_cons. intros [Hne Hk].
    rewrite decide_False by done. by rewrite IH.
Qed.

Lemma dict_get_alter d k k' (f : V → V) :
  Dict.get k' (Dict.alter f k d)
  = if decide (k = k') then f <$> Dict.get k' d else Dict.get k' d.
Proof.
  induction d as [|[k0 v0] d IH]; simpl; [by case_decide|].
  destruct (decide (k = k0)) as [->|Hne]; simpl.
  - destruct (decide (k' = k0)) as [->|Hne'].
    + by rewrite decide_True.
    + by rewrite decide_False by done.
  - destruct (decide (k' = k0)) as [->|Hne'].
    + by rewrite decide_False by done.
    + apply IH.
Qed.

Lemma dict_get_app_fresh d k v k' :
  k ∉ Dict.keys d →
  Dict.get k' (d ++ [(k, v)])
  = if decide (k' = k) then Some v else Dict.get k' d.
Proof.
  unfold Dict.keys. induction d as [|[k0 v0] d IH]; simpl; [done|].
  rewrite not_elem_of_cons. intros [Hne Hk].
  destruct (decide (k' = k0)) as [->|Hne'].
  - by rewrite decide_False by done.
  - by apply IH.
Qed.
End dict_lemmas.

(** ** Set difference *)

Lemma elem_of_set_diff (a b : list UserID) (x : UserID) :
  x ∈ set_diff a b ↔ x ∈ a ∧ x ∉ b.
Proof.
  unfold set_diff. rewrite elem_of_elements, elem_of_difference.
  by rewrite !elem_of_list_to_set.
Qed.

Lemma NoDup_set_diff (a b : list UserID) : NoDup (set_diff a b).
Proof. apply NoDup_elements. Qed.

Lemma set_diff_nil (a b : list UserID) :
  set_diff a b = [] ↔ ∀ x, x ∈ a → x ∈ b.
Proof.
  split.
  - intros E x Hx. destruct (decide (x ∈ b)) as [|Hn]; [done|].
    assert (x ∈ set_diff a b) as Hin by by apply elem_of_set_diff.
    rewrite E in Hin. by apply elem_of_nil in Hin.
  - intros Hsub. destruct (set_diff a b) as [|x l] eqn:E; [done|].
    assert (x ∈ set_diff a b) as Hin by (rewrite E; left).
    apply elem_of_set_diff in Hin as [Ha Hb]. by apply Hsub in Ha.
Qed.

Lemma length_pos_nil {A} (l : list A) : (0 <? length l)%nat = false ↔ l = [].
Proof. destruct l; simpl; split; done. Qed.

(** ** What [match_users] computes *)

Lemma match_user_push group email user ids gm :
  group ∉ Dict.keys gm →
  match_user group email user (push group ids gm)
  = push group (ids ++ matches [user] email) gm.
Proof.
  intros Hfresh. unfold match_user, matches. simpl.
  destruct (String.eqb_spec (user_email user) email) as [Heq|Hne].
  - rewrite filter_cons_True by done. simpl.
    destruct ids as [|i ids]; simpl.
    + apply dict_mem_false in Hfresh as Hmem. rewrite Hmem. simpl.
      rewrite dict_set_fresh by done.
      by rewrite (dict_alter_last gm group [] (λ l, l ++ [user_id user])).
    + assert (Dict.mem group (gm ++ [(group, i :: ids)]) = true) as ->.
      { apply dict_mem_true. unfold Dict.keys. rewrite fmap_app.
        apply elem_of_app. right. simpl. left. }
      simpl.
      rewrite (dict_alter_last gm group (i :: ids) (λ l, l ++ [user_id user]))
        by done.
      done.
  - rewrite filter_cons_False by done. simpl. by rewrite app_nil_r.
Qed.

Lemma matches_cons user clickup email :
  matches (user :: clickup) email = matches [user] email ++ matches clickup email.
Proof.
  unfold matches. destruct (decide (user_email user = email)).
  - by rewrite !filter_cons_True by done.
  - by rewrite !filter_cons_False by done.
Qed.

Lemma match_roster_push group email clickup ids gm :
  group ∉ Dict.keys gm →
  foldl (λ group_members user, match_user group email user group_members)
    (push group ids gm) clickup
  = push group (ids ++ matches clickup email) gm.
Proof.
  intros Hfresh. revert ids.
  induction clickup as [|user clickup IH]; intros ids; simpl.
  - unfold matches. simpl. by rewrite app_nil_r.
  - rewrite match_user_push by done. rewrite IH.
    by rewrite (matches_cons user clickup), app_assoc.
Qed.

Lemma match_emails_push group emails clickup ids gm :
  group ∉ Dict.keys gm →
  foldl (λ group_members email,
      foldl (λ group_members user, match_user group email user group_members)
        group_members clickup)
    (push group ids gm) emails
  = push group (ids ++ desired_ids clickup emails) gm.
Proof.
  intros Hfresh. revert ids.
  induction emails as [|email emails IH]; intros ids; simpl.
  - by rewrite app_nil_r.
  - rewrite match_roster_push by done. rewrite IH. by rewrite app_assoc.
Qed.

Lemma resolved_groups_keys okta clickup group :
  group ∈ Dict.keys (resolved_groups okta clickup) → group ∈ Dict.keys okta.
Proof.
  unfold Dict.keys, resolved_groups. intros Hin.
  apply list_elem_of_fmap in Hin as [[g ids] [-> Hin]].
  apply list_elem_of_omap in Hin as [[g' emails] [Hin Heq]].
  apply list_elem_of_fmap. exists (g', emails). split; [|done].
  destruct (desired_ids clickup emails); by simplify_eq.
Qed.

Lemma match_users_from okta clickup gm :
  NoDup (Dict.keys okta) →
  (∀ group, group ∈ Dict.keys okta → group ∉ Dict.keys gm) →
  foldl (λ group_members '(group, emails),
      foldl (λ group_members email,
        foldl (λ group_members user, match_user group email user group_members)
          group_members clickup)
        group_members emails)
    gm okta
  = gm ++ resolved_groups okta clickup.
Proof.
  revert gm. induction okta as [|[group emails] okta IH]; intros gm Hnd Hfresh.
  - simpl. by rewrite app_nil_r.
  - unfold Dict.keys in Hnd. simpl in Hnd. apply NoDup_cons in Hnd as [Hg Hnd].
    assert (group ∉ Dict.keys gm) as Hgm.
    { apply Hfresh. unfold Dict.keys. simpl. left. }
    simpl. pose proof (match_emails_push group emails clickup [] gm Hgm) as Hp.
    simpl in Hp. rewrite Hp. rewrite IH; [|done|].
    + unfold push. destruct (desired_ids clickup emails); [done|].
      by rewrite <- app_assoc.
    + intros g Hin. assert (g ∉ Dict.keys gm) as Hn.
      { apply Hfresh. unfold Dict.keys. simpl. by right. }
      unfold push. destruct (desired_ids clickup emails); [done|].
      unfold Dict.keys. rewrite fmap_app. simpl.
      rewrite elem_of_app, list_elem_of_singleton.
      intros [?| ->]; [done|]. by apply Hg.
Qed.

(** On a dictionary of Okta groups, [match_users] keeps, in order, the
    groups with at least one matched address, each with its matched ids. *)
Lemma match_users_resolved okta clickup :
  NoDup (Dict.keys okta) →
  match_users okta clickup = resolved_groups okta clickup.
Proof.
  intros Hnd. unfold match_users.
  rewrite match_users_from; [done | done |].
  intros group _. apply not_elem_of_nil.
Qed.

Lemma NoDup_resolved_groups okta clickup :
  NoDup (Dict.keys okta) → NoDup (Dict.keys (resolved_groups okta clickup)).
Proof.
  unfold Dict.keys. induction okta as [|[group emails] okta IH]; simpl.
  - intros _. apply NoDup_nil_2.
  - intros Hnd. apply NoDup_cons in Hnd as [Hg Hnd].
    unfold resolved_groups. simpl.
    destruct (desired_ids clickup emails) eqn:E; simpl; [by apply IH|].
    apply NoDup_cons. split; [|by apply IH].
    intros Hin. apply Hg. by apply resolved_groups_keys in Hin.
Qed.

(** A group is a key of the result exactly when one of its addresses is
    the address of a roster entry. *)
Lemma match_users_keys okta clickup group :
  NoDup (Dict.keys okta) →
  group ∈ Dict.keys (match_users okta clickup) ↔
  ∃ emails, (group, emails) ∈ okta ∧ desired_ids clickup emails ≠ [].
Proof.
  intros Hnd. rewrite match_users_resolved by done.
  unfold Dict.keys, resolved_groups. rewrite list_elem_of_fmap. split.
  - intros ([g ids] & -> & Hin).
    apply list_elem_of_omap in Hin as ([g' emails] & Hin & Heq).
    destruct (desired_ids clickup emails) eqn:E; simplify_eq.
    exists emails. split; [done|]. by rewrite E.
  - intros (emails & Hin & Hne).
    destruct (desired_ids clickup emails) as [|i ids] eqn:E; [done|].
    exists (group, i :: ids). split; [done|].
    apply list_elem_of_omap. exists (group, emails). by rewrite E.
Qed.

(** ** The fetched dictionaries have unique keys *)

Lemma NoDup_get_okta_groups cfg okta_groups users_of :
  NoDup (Dict.keys (get_okta_groups cfg okta_groups users_of)).
Proof.
  unfold get_okta_groups.
  assert (∀ d : list (string * list string), NoDup (Dict.keys d) →
    NoDup (Dict.keys (foldl (λ group_members okta_group,
      if negb (startswith (okta_name okta_group) (OKTA_GROUP_PREFIXES cfg))
      then group_members
      else
        let group_members := Dict.set (okta_name okta_group) [] group_members in
        let data := users_of (okta_id okta_group) in
        Dict.set (okta_name okta_group)
          (filter (λ email, endswith email (EMAIL_DOMAIN cfg) = true) data)
          group_members) d okta_groups))) as Hgen.
  { induction okta_groups as [|g gs IH]; intros d Hd; simpl; [done|].
    apply IH. destruct (negb _); [done|]. by do 2 apply dict_NoDup_set. }
  apply Hgen. apply NoDup_nil_2.
Qed.

Lemma NoDup_get_clickup_groups cfg groups :
  NoDup (Dict.keys (get_clickup_groups cfg groups)).
Proof.
  unfold get_clickup_groups.
  assert (∀ d : list (string * Properties), NoDup (Dict.keys d) →
    NoDup (Dict.keys (foldl (λ clickup_groups group,
      if startswith (group_name group) (OKTA_GROUP_PREFIXES cfg)
      then
        Dict.set (group_name group)
          {| prop_id := group_id group;
             prop_members := map member_id (group_members group) |}
          clickup_groups
      else clickup_groups) d groups))) as Hgen.
  { induction groups as [|g gs IH]; intros d Hd; simpl; [done|].
    apply IH. destruct (startswith _ _); [|done]. by apply dict_NoDup_set. }
  apply Hgen. apply NoDup_nil_2.
Qed.

(** ** What the loop decides *)

Lemma mutations_app s1 s2 : mutations (s1 ++ s2) = mutations s1 ++ mutations s2.
Proof. apply omap_app. Qed.

Lemma mutations_flat_map {A} (f : A → list Step) (l : list A) :
  mutations (flat_map f l) = flat_map (λ x, mutations (f x)) l.
Proof.
  induction l as [|x l IH]; simpl; [done|].
  by rewrite mutations_app, IH.
Qed.

Lemma update_steps_absent okta_group okta_members clickup_groups :
  okta_group ∉ Dict.keys clickup_groups →
  flat_map (update_steps okta_group okta_members) clickup_groups = [].
Proof.
  unfold Dict.keys.
  induction clickup_groups as [|[name properties] clickup_groups IH]; simpl;
    [done|].
  rewrite not_elem_of_cons. intros [Hne Hin].
  destruct (String.eqb_spec okta_group name); [done|]. by apply IH.
Qed.

Lemma update_steps_present okta_group okta_members clickup_groups properties :
  NoDup (Dict.keys clickup_groups) →
  Dict.get okta_group clickup_groups = Some properties →
  flat_map (update_steps okta_group okta_members) clickup_groups
  = update_steps okta_group okta_members (okta_group, properties).
Proof.
  unfold Dict.keys.
  induction clickup_groups as [|[name p] clickup_groups IH]; [done|].
  intros Hnd Hget. apply NoDup_cons in Hnd as [Hname Hnd].
  cbn [flat_map Dict.get] in *.
  destruct (decide (okta_group = name)) as [->|Hne].
  - simplify_eq. rewrite update_steps_absent by done. by rewrite app_nil_r.
  - rewrite IH by done. unfold update_steps at 1.
    by destruct (String.eqb_spec okta_group name).
Qed.

(** With unique ClickUp names, a pass of the outer loop takes one decision. *)
Lemma steps_for_get clickup_groups okta_group okta_members :
  NoDup (Dict.keys clickup_groups) →
  steps_for clickup_groups (okta_group, okta_members)
  = match Dict.get okta_group clickup_groups with
    | None => [Mutate (CreateGroup okta_group okta_members)]
    | Some properties =>
        update_steps okta_group okta_members (okta_group, properties)
    end.
Proof.
  intros Hnd. unfold steps_for, Dict.mem.
  destruct (Dict.get okta_group clickup_groups) as [properties|] eqn:Hget;
    simpl.
  - by apply update_steps_present.
  - apply dict_get_None in Hget. rewrite update_steps_absent by done.
    done.
Qed.

(** ** What a run sends and logs *)

Lemma sent_snoc tr e : sent (tr ++ [e]) = sent tr ++ sent [e].
Proof. apply omap_app. Qed.

Lemma logged_status_snoc tr e :
  logged_status (tr ++ [e]) = logged_status tr ++ logged_status [e].
Proof. apply omap_app. Qed.

Lemma dry_run_notices_snoc tr e :
  dry_run_notices (tr ++ [e]) = dry_run_notices tr ++ dry_run_notices [e].
Proof. apply omap_app. Qed.

Ltac unfold_step :=
  unfold perform, announce, log_response, mbind, M_bind, bind, when, log, ret,
    send, raise.

Ltac observe :=
  repeat (rewrite ?sent_snoc, ?logged_status_snoc, ?dry_run_notices_snoc;
          simpl; rewrite ?app_nil_r).

Section runs.
Variable cfg : Config.
Variable server : Server.

Lemma execute_cons s steps tr :
  execute cfg server (s :: steps) tr
  = match perform cfg server s tr with
    | (inl e, tr') => (inl e, tr')
    | (inr _, tr') => execute cfg server steps tr'
    end.
Proof. done. Qed.

Lemma perform_dry_run s tr :
  DRY_RUN cfg = true →
  ∃ tr', perform cfg server s tr = (inr (), tr') ∧
    sent tr' = sent tr ∧
    dry_run_notices tr' = dry_run_notices tr ++ (mutations [s] ≫= λ _, [()]).
Proof.
  intros Hdry. destruct s as [[name ids|id name add rem]|name];
    unfold_step; rewrite ?Hdry; simpl.
  - eexists. split; [done|]. by observe.
  - destruct (0 <? length add)%nat, (0 <? length rem)%nat; simpl;
      (eexists; split; [done|]; by observe).
  - eexists. split; [done|]. by observe.
Qed.

Lemma execute_dry_run steps tr :
  DRY_RUN cfg = true →
  fst (execute cfg server steps tr) = inr () ∧
  sent (snd (execute cfg server steps tr)) = sent tr ∧
  length (dry_run_notices (snd (execute cfg server steps tr)))
  = (length (dry_run_notices tr) + length (mutations steps))%nat.
Proof.
  intros Hdry. revert tr. induction steps as [|s steps IH]; intros tr.
  - simpl. split_and!; [done | done | lia].
  - rewrite execute_cons.
    destruct (perform_dry_run s tr Hdry) as (tr' & -> & Hsent & Hnote).
    destruct (IH tr') as (Hres & Hsent' & Hnote').
    split_and!; [done | congruence |].
    rewrite Hnote', Hnote, length_app.
    change (s :: steps) with ([s] ++ steps). rewrite mutations_app, length_app.
    destruct s as [i|name]; simpl; lia.
Qed.

(** Whatever the server does, a step sends at most its own request. *)
Lemma perform_sent s tr :
  ∃ rs, sent (snd (perform cfg server s tr)) = sent tr ++ rs ∧
    (rs = [] ∨ rs = request_of cfg <$> mutations [s]).
Proof.
  destruct s as [[name ids|id name add rem]|name]; unfold_step; simpl.
  - destruct (DRY_RUN cfg); simpl.
    + exists []. split; [by observe | by left].
    + exists [request_of cfg (CreateGroup name ids)]. split; [|by right].
      destruct (server _ _) as [response|]; simpl; [|by observe].
      destruct (DEBUG cfg); simpl; [|by observe].
      destruct (json response); simpl; by observe.
  - exists (if DRY_RUN cfg then []
            else [request_of cfg (UpdateGroup id name add rem)]).
    split; [|destruct (DRY_RUN cfg); [by left | by right]].
    destruct (0 <? length add)%nat, (0 <? length rem)%nat,
      (DRY_RUN cfg); simpl; try by observe.
    all: destruct (server _ _) as [response|]; simpl; [|by observe].
    all: destruct (DEBUG cfg); simpl; [|by observe].
    all: destruct (json response); simpl; by observe.
  - exists []. split; [by observe | by left].
Qed.

Lemma execute_sent steps tr r :
  r ∈ sent (snd (execute cfg server steps tr)) →
  r ∈ sent tr ∨ r ∈ request_of cfg <$> mutations steps.
Proof.
  revert tr. induction steps as [|s steps IH]; intros tr; [by left|].
  rewrite execute_cons.
  destruct (perform_sent s tr) as (rs & Hsent & Hrs).
  change (s :: steps) with ([s] ++ steps). rewrite mutations_app, fmap_app.
  destruct (perform cfg server s tr) as [[e|[]] tr'] eqn:Hp; simpl in *.
  - rewrite Hsent, !elem_of_app. destruct Hrs as [-> | ->]; [|tauto].
    intros [?|Hnil]; [tauto | by apply elem_of_nil in Hnil].
  - intros Hin. apply IH in Hin. rewrite Hsent in Hin.
    rewrite !elem_of_app in *. destruct Hrs as [-> | ->]; [|tauto].
    destruct Hin as [[?|Hnil]|?]; [tauto | by apply elem_of_nil in Hnil | tauto].
Qed.


End runs.

(** ** Membership in the diff *)

Lemma elem_of_flat_map {A B} (f : A → list B) (l : list A) (y : B) :
  y ∈ flat_map f l ↔ ∃ x, x ∈ l ∧ y ∈ f x.
Proof.
  rewrite list_elem_of_In, in_flat_map.
  by setoid_rewrite list_elem_of_In.
Qed.

Lemma elem_of_mutations steps i : i ∈ mutations steps ↔ Mutate i ∈ steps.
Proof.
  unfold mutations. rewrite list_elem_of_omap. split.
  - intros ([i'|name] & Hin & Heq); by simplify_eq.
  - intros Hin. by exists (Mutate i).
Qed.

(** Every mutation of the diff comes from one desired group: a creation
    when the name is not a ClickUp name, an update with a non-empty change
    for a ClickUp group of that name. *)
Lemma elem_of_diff okta_groups clickup_groups i :
  i ∈ diff okta_groups clickup_groups ↔
  ∃ name wanted, (name, wanted) ∈ okta_groups ∧
    ((i = CreateGroup name wanted ∧ name ∉ Dict.keys clickup_groups) ∨
     (∃ properties, (name, properties) ∈ clickup_groups ∧
        let add := set_diff wanted (prop_members properties) in
        let rem := set_diff (prop_members properties) wanted in
        i = UpdateGroup (prop_id properties) name add rem ∧
        (add ≠ [] ∨ rem ≠ []))).
Proof.
  unfold diff, sync_steps. rewrite elem_of_mutations, elem_of_flat_map.
  split.
  - intros ([name wanted] & Hin & Hstep). exists name, wanted.
    split; [done|]. unfold steps_for in Hstep.
    apply elem_of_app in Hstep as [Hc|Hu].
    + left. destruct (Dict.mem name clickup_groups) eqn:Hmem; simpl in Hc.
      * by apply elem_of_nil in Hc.
      * apply list_elem_of_singleton in Hc. simplify_eq.
        split; [done | by apply dict_mem_false].
    + right. apply elem_of_flat_map in Hu as ([cname properties] & Hin' & Hu).
      unfold update_steps in Hu.
      destruct (String.eqb_spec name cname) as [<-|]; [|by apply elem_of_nil in Hu].
      exists properties. split; [done|]. simpl.
      destruct (0 <? length (set_diff wanted _))%nat eqn:Ha;
        [|destruct (0 <? length (set_diff _ wanted))%nat eqn:Hr]; simpl in Hu;
        apply list_elem_of_singleton in Hu; simplify_eq.
      * split; [done|]. left. intros E. apply length_pos_nil in E. congruence.
      * split; [done|]. right. intros E. apply length_pos_nil in E. congruence.
  - intros (name & wanted & Hin & Hcase). exists (name, wanted).
    split; [done|]. unfold steps_for. apply elem_of_app.
    destruct Hcase as [[-> Habs]|(properties & Hin' & -> & Hne)].
    + left. apply dict_mem_false in Habs. rewrite Habs. simpl. left.
    + right. apply elem_of_flat_map. exists (name, properties).
      split; [done|]. unfold update_steps. rewrite String.eqb_refl.
      destruct (0 <? length (set_diff wanted _))%nat eqn:Ha; simpl; [left|].
      destruct (0 <? length (set_diff _ wanted))%nat eqn:Hr; simpl; [left|].
      apply length_pos_nil in Ha, Hr. by destruct Hne.
Qed.

Lemma diff_flat_map okta_groups clickup_groups :
  diff okta_groups clickup_groups
  = flat_map (λ entry, mutations (steps_for clickup_groups entry)) okta_groups.
Proof. apply mutations_flat_map. Qed.

(** With unique ClickUp names, the mutations of one desired group. *)
Lemma mutations_steps_for clickup_groups name wanted :
  NoDup (Dict.keys clickup_groups) →
  mutations (steps_for clickup_groups (name, wanted))
  = match Dict.get name clickup_groups with
    | None => [CreateGroup name wanted]
    | Some group =>
        let add := set_diff wanted (prop_members group) in
        let rem := set_diff (prop_members group) wanted in
        match add, rem with
        | [], [] => []
        | _, _ => [UpdateGroup (prop_id group) name add rem]
        end
    end.
Proof.
  intros Hnd. rewrite steps_for_get by done.
  destruct (Dict.get name clickup_groups) as [group|]; [|done].
  unfold update_steps. rewrite String.eqb_refl. simpl.
  destruct (set_diff wanted _) as [|x add]; simpl; [|done].
  by destruct (set_diff _ wanted) as [|y rem].
Qed.

Lemma mutations_steps_for_names clickup_groups name wanted :
  NoDup (Dict.keys clickup_groups) →
  intent_name <$> mutations (steps_for clickup_groups (name, wanted))
    `sublist_of` [name].
Proof.
  intros Hnd. rewrite mutations_steps_for by done.
  destruct (Dict.get name clickup_groups) as [group|]; simpl; [|done].
  destruct (set_diff wanted _) as [|x add]; simpl; [|done].
  destruct (set_diff _ wanted) as [|y rem]; simpl; [|done].
  apply sublist_nil_l.
Qed.

(** The names of the mutations follow the order of the desired groups. *)
Lemma diff_names_sublist okta_groups clickup_groups :
  NoDup (Dict.keys clickup_groups) →
  intent_name <$> diff okta_groups clickup_groups
    `sublist_of` Dict.keys okta_groups.
Proof.
  intros Hnd. rewrite diff_flat_map. unfold Dict.keys.
  induction okta_groups as [|[name wanted] okta_groups IH]; [done|].
  cbn [flat_map]. rewrite fmap_app, fmap_cons. cbn [fst].
  change (name :: okta_groups.*1) with ([name] ++ okta_groups.*1).
  apply sublist_app; [by apply mutations_steps_for_names | done].
Qed.


(** ** URLs *)

Lemma create_url_update_url cfg gid : create_url cfg ≠ update_url cfg gid.
Proof.
  unfold create_url, update_url. intros E.
  apply (inj (String.app _)) in E. injection E. intros. discriminate.
Qed.

Lemma update_url_inj cfg gid gid' :
  update_url cfg gid = update_url cfg gid' → gid = gid'.
Proof.
  unfold update_url. intros E.
  apply (inj (String.app _)) in E. by apply (inj (String.app _)) in E.
Qed.

Lemma NoDup_fmap_elem {A B} (f : A → B) (l : list A) x y :
  NoDup (f <$> l) → x ∈ l → y ∈ l → f x = f y → x = y.
Proof.
  induction l as [|a l IH].
  - intros _ Hx. by apply elem_of_nil in Hx.
  - rewrite fmap_cons, NoDup_cons. intros [Ha Hnd] Hx Hy Heq.
    apply elem_of_cons in Hx as [->|Hx], Hy as [->|Hy]; [done| | |by apply IH].
    + exfalso. apply Ha. rewrite Heq. by apply list_elem_of_fmap_2.
    + exfalso. apply Ha. rewrite <- Heq. by apply list_elem_of_fmap_2.
Qed.

(** * The properties *)

(** C1. For every name of the desired mapping the diff holds a
    [CreateGroup] with the desired members when the name is missing from
    the existing groups; when the name is present with id [gid] and members
    [cur], it holds nothing when [desired − cur] and [cur − desired] are both
    empty and otherwise one [UpdateGroup] with [gid], the name and the two
    differences. The differences are set differences. *)
Theorem diff_meets_spec desired existing :
  NoDup (Dict.keys existing) →
  diff desired existing = diff_spec desired existing ∧
  (∀ a b x, x ∈ set_diff a b ↔ x ∈ a ∧ x ∉ b) ∧
  (∀ a b, NoDup (set_diff a b)).
Proof.
  intros Hnd. split_and!.
  - rewrite diff_flat_map. unfold diff_spec.
    induction desired as [|[name wanted] desired IH]; [done|].
    cbn [flat_map]. rewrite IH. f_equal. by apply mutations_steps_for.
  - apply elem_of_set_diff.
  - apply NoDup_set_diff.
Qed.

Lemma diff_meets_spec_witness :
  NoDup (Dict.keys ex_existing) ∧
  diff ex_desired ex_existing
  = [CreateGroup "eng-backend" [11; 12];
     UpdateGroup "g-front" "eng-frontend" [13] [15]].
Proof.
  assert (NoDup (Dict.keys ex_existing)) as Hnd.
  { apply (bool_decide_unpack _). vm_compute. exact I. }
  split; [exact Hnd|].
  rewrite (proj1 (diff_meets_spec ex_desired ex_existing Hnd)).
  vm_compute. reflexivity.
Defined.

(** C3. A ClickUp group whose name is not a desired name is left alone:
    no mutation of the diff carries its name or its id, and in no run, dry
    or not and whatever the server answers, is a request sent to the URL of
    its id. Ids identify the ClickUp groups. *)
Theorem absent_group_untouched cfg server okta_groups clickup_groups
    name properties :
  (name, properties) ∈ clickup_groups →
  name ∉ Dict.keys okta_groups →
  NoDup (prop_id <$> clickup_groups.*2) →
  (∀ i, i ∈ diff okta_groups clickup_groups →
     intent_name i ≠ name ∧ intent_id i ≠ Some (prop_id properties)) ∧
  (∀ r, r ∈ sent (snd (sync_loop cfg server okta_groups clickup_groups [])) →
     req_url r ≠ update_url cfg (prop_id properties)).
Proof.
  intros Hin Habs Hids.
  assert (∀ i, i ∈ diff okta_groups clickup_groups →
     intent_name i ≠ name ∧ intent_id i ≠ Some (prop_id properties)) as Hdiff.
  { intros i Hi. apply elem_of_diff in Hi as (n & wanted & Hn & Hcase).
    assert (n ≠ name) as Hne.
    { intros ->. apply Habs. unfold Dict.keys.
      by apply (list_elem_of_fmap_2 fst) in Hn. }
    destruct Hcase as [[-> _]|(p & Hp & -> & _)]; simpl; [done|].
    split; [done|]. intros [= Hid]. apply Hne.
    assert ((n, p) = (name, properties)) as Heq; [|by simplify_eq].
    apply (NoDup_fmap_elem (λ e, prop_id e.2) clickup_groups); [|done..].
    rewrite <- list_fmap_compose in Hids. exact Hids. }
  split; [done|].
  intros r Hr. rewrite sync_loop_execute in Hr.
  apply execute_sent in Hr as [Hr|Hr]; [by apply elem_of_nil in Hr|].
  apply list_elem_of_fmap in Hr as (i & -> & Hi).
  destruct (Hdiff i Hi) as [_ Hid].
  destruct i as [n ids|id n add rem]; simpl in *.
  - apply create_url_update_url.
  - intros E. apply update_url_inj in E. congruence.
Qed.

Lemma absent_group_untouched_witness :
  (∀ i, i ∈ diff ex_desired ex_existing →
     intent_name i ≠ "eng-legacy" ∧ intent_id i ≠ Some "g-legacy") ∧
  (∀ r, r ∈ sent (snd (sync_loop (ex_cfg false) ex_ok_server
                         ex_desired ex_existing [])) →
     req_url r ≠ update_url (ex_cfg false) "g-legacy").
Proof.
  apply (absent_group_untouched (ex_cfg false) ex_ok_server ex_desired
           ex_existing "eng-legacy"
           {| prop_id := "g-legacy"; prop_members := [16] |}).
  - apply (bool_decide_unpack _). vm_compute. exact I.
  - apply (bool_decide_unpack _). vm_compute. exact I.
  - apply (bool_decide_unpack _). vm_compute. exact I.
Defined.

(** C4. In every [UpdateGroup] of the diff the added and the removed ids
    are disjoint and not both empty. *)
Theorem update_disjoint_nonempty okta_groups clickup_groups id name add rem :
  UpdateGroup id name add rem ∈ diff okta_groups clickup_groups →
  (∀ x, x ∈ add → x ∉ rem) ∧ (add ≠ [] ∨ rem ≠ []).
Proof.
  intros Hin. apply elem_of_diff in Hin as (n & wanted & _ & Hcase).
  destruct Hcase as [[? _]|(p & _ & Heq & Hne)]; [done|].
  simpl in Heq. simplify_eq. split; [|done].
  intros x Ha Hr. apply elem_of_set_diff in Ha as [_ Ha].
  by apply elem_of_set_diff in Hr as [Hr _].
Qed.

Lemma update_disjoint_nonempty_witness :
  (∀ x : UserID, x ∈ [13] → x ∉ [15]) ∧ (([13] : list UserID) ≠ [] ∨ ([15] : list UserID) ≠ []).
Proof.
  apply (update_disjoint_nonempty ex_desired ex_existing "g-front"
           "eng-frontend" [13] [15]).
  apply (bool_decide_unpack _). vm_compute. exact I.
Defined.

Example ex_match_users :
  match_users (get_okta_groups (ex_cfg false) ex_okta_groups ex_users_of)
    ex_roster = ex_desired.
Proof. vm_compute. reflexivity. Qed.

Example ex_get_clickup_groups :
  get_clickup_groups (ex_cfg false) ex_groups = ex_existing.
Proof. vm_compute. reflexivity. Qed.

(** The scenarios of the specification: a missing group is created, a
    differing group is updated, an equal group is left alone, and an address
    without roster entry is dropped. *)
Example scenario_create :
  diff (match_users [("eng-backend", ["a@co.com"; "b@co.com"])] ex_roster) []
  = [CreateGroup "eng-backend" [11; 12]].
Proof. vm_compute. reflexivity. Qed.

Example scenario_update :
  diff [("eng-backend", [11; 12])]
    [("eng-backend", {| prop_id := "g1"; prop_members := [11; 13] |})]
  = [UpdateGroup "g1" "eng-backend" [12] [13]].
Proof. vm_compute. reflexivity. Qed.

Example scenario_equal :
  diff [("eng-backend", [11; 12])]
    [("eng-backend", {| prop_id := "g1"; prop_members := [12; 11] |})]
  = [].
Proof. vm_compute. reflexivity. Qed.

Example scenario_dropped :
  match_users [("eng-backend", ["a@co.com"; "ghost@co.com"])] ex_roster
  = [("eng-backend", [11])].
Proof. vm_compute. reflexivity. Qed.

Lemma sync_groups_execute cfg server okta_groups users_of clickup_users groups tr :
  sync_groups cfg server okta_groups users_of clickup_users groups tr
  = execute cfg server
      (sync_steps
         (match_users (get_okta_groups cfg okta_groups users_of) clickup_users)
         (get_clickup_groups cfg groups)) tr.
Proof. apply sync_loop_execute. Qed.

(** C5. In a dry run no mutating request is sent, whatever the fetched data
    and whatever list of steps is executed: the run ends normally, the
    trace holds no request, and each mutation of the plan is reported by one
    dry-run notice. *)
Theorem dry_run_sends_nothing cfg server okta_groups users_of clickup_users
    groups steps :
  DRY_RUN cfg = true →
  let run := sync_groups cfg server okta_groups users_of clickup_users groups []
  in
  fst run = inr () ∧
  sent (snd run) = [] ∧
  length (dry_run_notices (snd run))
  = length (plan cfg okta_groups users_of clickup_users groups) ∧
  sent (snd (execute cfg server steps [])) = [].
Proof.
  intros Hdry run. unfold run. rewrite sync_groups_execute.
  destruct (execute_dry_run cfg server
    (sync_steps
       (match_users (get_okta_groups cfg okta_groups users_of) clickup_users)
       (get_clickup_groups cfg groups)) [] Hdry) as (Hres & Hsent & Hnote).
  split_and!; [done | done | exact Hnote |].
  by destruct (execute_dry_run cfg server steps [] Hdry) as (_ & -> & _).
Qed.

Lemma dry_run_sends_nothing_witness :
  DRY_RUN (ex_cfg true) = true ∧
  sent (snd (sync_groups (ex_cfg true) ex_ok_server ex_okta_groups ex_users_of
               ex_roster ex_groups [])) = [].
Proof.
  split; [reflexivity|].
  apply (dry_run_sends_nothing (ex_cfg true) ex_ok_server ex_okta_groups
           ex_users_of ex_roster ex_groups []).
  reflexivity.
Defined.






(** The status codes in the log of the run refused with 500, and of the run
    whose first answer does not decode. *)
Example logged_status_examples :
  logged_status
    (snd (sync_groups (ex_cfg false) ex_failing_server ex_okta_groups
            ex_users_of ex_roster ex_groups [])) = [500; 500] ∧
  logged_status
    (snd (sync_groups (ex_cfg false) ex_garbled_server ex_okta_groups
            ex_users_of ex_roster ex_groups [])) = [502].
Proof. vm_compute. done. Qed.


(** C2, on the code. The Okta group [eng-idle] has a single member, whose
    address is not in the roster: [match_users] returns no entry for it,
    and the run leaves the ClickUp group of that name with its member. With
    an entry holding the empty list, the same loop empties the group. *)
Theorem unresolved_group_is_dropped :
  let okta := [("eng-idle", ["ghost@co.com"])] in
  let existing :=
    [("eng-idle", {| prop_id := "g-idle"; prop_members := [15] |})] in
  match_users okta ex_roster = [] ∧
  Dict.mem "eng-idle" (match_users okta ex_roster) = false ∧
  diff (match_users okta ex_roster) existing = [] ∧
  diff [("eng-idle", [])] existing = [UpdateGroup "g-idle" "eng-idle" [] [15]].
Proof. vm_compute. done. Qed.

(** C7, as the code has it. For one address the loop contributes the ids
    of all the roster entries with exactly that address, in roster order,
    and no entry at all when there is none. The first id contributed is the
    one of the first matching entry, and when no two roster entries share an
    address it is the only one. *)
Theorem match_contributes_all_matches group email clickup :
  let ids := user_id <$> filter (λ user, user_email user = email) clickup in
  match_users [(group, [email])] clickup
  = match ids with [] => [] | _ => [(group, ids)] end ∧
  head ids = resolve email clickup ∧
  (NoDup (user_email <$> clickup) → ids = option_list (resolve email clickup)).
Proof.
  intros ids. split_and!.
  - rewrite match_users_resolved.
    + unfold resolved_groups, desired_ids. simpl. rewrite app_nil_r.
      unfold matches. fold ids. by destruct ids.
    + apply NoDup_singleton.
  - unfold ids. induction clickup as [|user clickup IH]; simpl; [done|].
    destruct (String.eqb_spec (user_email user) email) as [Heq|Hne].
    + by rewrite filter_cons_True.
    + by rewrite filter_cons_False.
  - unfold ids. clear ids.
    induction clickup as [|user clickup IH]; [done|].
    rewrite fmap_cons, NoDup_cons. intros [Hfresh Hnd]. simpl.
    destruct (String.eqb_spec (user_email user) email) as [Heq|Hne].
    + rewrite filter_cons_True by done. simpl. f_equal.
      destruct (filter _ clickup) as [|other rest] eqn:Hf; [done|].
      exfalso. apply Hfresh.
      assert (other ∈ filter (λ user, user_email user = email) clickup) as Hin
        by (rewrite Hf; left).
      apply list_elem_of_filter in Hin as [Hmail Hin].
      rewrite Heq, <- Hmail. by apply list_elem_of_fmap_2.
    + rewrite filter_cons_False by done. by apply IH.
Qed.

Lemma match_contributes_all_matches_witness :
  NoDup (user_email <$> ex_roster) ∧
  match_users [("eng-backend", ["b@co.com"])] ex_roster
  = [("eng-backend", [12])].
Proof.
  split; [apply (bool_decide_unpack _); vm_compute; exact I|].
  apply (match_contributes_all_matches "eng-backend" "b@co.com" ex_roster).
Defined.

(** C7, read literally, does not hold: with two roster entries of the same
    address, the first match is id 1, and both ids are contributed. *)
Lemma duplicate_address_contributes_twice :
  ¬ (∀ group email clickup id,
       resolve email clickup = Some id →
       match_users [(group, [email])] clickup = [(group, [id])]).
Proof.
  intros Hfirst.
  specialize (Hfirst "eng-backend" "a@co.com"
    [{| user_id := 1; user_email := "a@co.com" |};
     {| user_id := 2; user_email := "a@co.com" |}] 1 eq_refl).
  vm_compute in Hfirst. discriminate Hfirst.
Qed.





Lemma filter_fmap_NoDup {A B} `{EqDecision B} (f : A → B) (l : list A) y :
  NoDup (f <$> l) → (length (filter (λ x, f x = y) l) ≤ 1)%nat.
Proof.
  induction l as [|a l IH]; [simpl; lia|].
  rewrite fmap_cons, NoDup_cons. intros [Ha Hnd].
  destruct (decide (f a = y)) as [Hy|Hy].
  - rewrite filter_cons_True by done. simpl.
    destruct (filter (λ x, f x = y) l) as [|b rest] eqn:Hf; [simpl; lia|].
    exfalso. apply Ha.
    assert (b ∈ filter (λ x, f x = y) l) as Hb by (rewrite Hf; left).
    apply list_elem_of_filter in Hb as [Hfb Hb].
    rewrite Hy, <- Hfb. by apply list_elem_of_fmap_2.
  - rewrite filter_cons_False by done. by apply IH.
Qed.

Lemma NoDup_match_users cfg okta_groups users_of clickup_users :
  NoDup (Dict.keys
    (match_users (get_okta_groups cfg okta_groups users_of) clickup_users)).
Proof.
  pose proof (NoDup_get_okta_groups cfg okta_groups users_of) as Hnd.
  rewrite match_users_resolved by done. by apply NoDup_resolved_groups.
Qed.

(** C10. In a run at most one mutation is issued per group name: a
    [CreateGroup] exactly for the desired names that are not ClickUp names,
    an [UpdateGroup] only for desired names that are ClickUp names, and so
    never both for one name. *)
Theorem one_mutation_per_name cfg okta_groups users_of clickup_users groups
    name :
  let desired :=
    match_users (get_okta_groups cfg okta_groups users_of) clickup_users in
  let existing := get_clickup_groups cfg groups in
  let intents := plan cfg okta_groups users_of clickup_users groups in
  (length (filter (λ i, intent_name i = name) intents) ≤ 1)%nat ∧
  ((∃ ids, CreateGroup name ids ∈ intents) ↔
   name ∈ Dict.keys desired ∧ name ∉ Dict.keys existing) ∧
  ((∃ id add rem, UpdateGroup id name add rem ∈ intents) →
   name ∈ Dict.keys desired ∧ name ∈ Dict.keys existing) ∧
  NoDup (Dict.keys existing).
Proof.
  intros desired existing intents.
  pose proof (NoDup_match_users cfg okta_groups users_of clickup_users)
    as Hdesired.
  pose proof (NoDup_get_clickup_groups cfg groups) as Hexisting.
  fold desired in Hdesired. fold existing in Hexisting.
  split_and!; [| | |done].
  - apply filter_fmap_NoDup.
    eapply sublist_NoDup; [exact Hdesired|].
    by apply diff_names_sublist.
  - unfold intents, plan. fold desired existing. split.
    + intros [ids Hin]. apply elem_of_diff in Hin
        as (n & wanted & Hn & [[Heq Habs]|(p & _ & Heq & _)]);
        simpl in Heq; simplify_eq.
      split; [|done]. unfold Dict.keys.
      by apply (list_elem_of_fmap_2 fst) in Hn.
    + intros [Hin Habs]. unfold Dict.keys in Hin.
      apply list_elem_of_fmap in Hin as ([n wanted] & -> & Hin).
      exists wanted. apply elem_of_diff. exists n, wanted.
      split; [done|]. by left.
  - unfold intents, plan. fold desired existing.
    intros (id & add & rem & Hin). apply elem_of_diff in Hin
      as (n & wanted & Hn & [[Heq Habs]|(p & Hp & Heq & _)]);
      simpl in Heq; simplify_eq.
    split; unfold Dict.keys.
    + by apply (list_elem_of_fmap_2 fst) in Hn.
    + by apply (list_elem_of_fmap_2 fst) in Hp.
Qed.

Lemma one_mutation_per_name_witness :
  (length (filter (λ i, intent_name i = "eng-frontend")
     (plan (ex_cfg false) ex_okta_groups ex_users_of ex_roster ex_groups))
   ≤ 1)%nat.
Proof.
  apply (one_mutation_per_name (ex_cfg false) ex_okta_groups ex_users_of
           ex_roster ex_groups "eng-frontend").
Defined.

(** ** Applying a plan *)

Lemma dict_get_set {V} (d : list (string * V)) k k' v :
  Dict.get k' (Dict.set k v d)
  = if decide (k' = k) then Some v else Dict.get k' d.
Proof.
  induction d as [|[k0 v0] d IH]; simpl.
  - by destruct (decide (k' = k)).
  - destruct (decide (k = k0)) as [->|Hne]; simpl.
    + by destruct (decide (k' = k0)).
    + destruct (decide (k' = k0)) as [->|Hne'].
      * by rewrite decide_False by done.
      * apply IH.
Qed.

Lemma settled_after_update wanted cur :
  let members :=
    filter (λ x, x ∉ set_diff cur wanted) cur ++ set_diff wanted cur in
  set_diff wanted members = [] ∧ set_diff members wanted = [].
Proof.
  intros members. unfold members. split; apply set_diff_nil; intros x Hx.
  - apply elem_of_app. destruct (decide (x ∈ cur)) as [Hcur|Hcur].
    + left. apply list_elem_of_filter. split; [|done].
      rewrite elem_of_set_diff. tauto.
    + right. by apply elem_of_set_diff.
  - apply elem_of_app in Hx as [Hx|Hx].
    + apply list_elem_of_filter in Hx as [Hrem Hcur].
      rewrite elem_of_set_diff in Hrem.
      destruct (decide (x ∈ wanted)); tauto.
    + by apply elem_of_set_diff in Hx as [? _].
Qed.

Lemma NoDup_apply_plan fresh intents existing :
  NoDup (Dict.keys existing) →
  NoDup (Dict.keys (apply_plan fresh intents existing)).
Proof.
  unfold apply_plan. revert existing.
  induction intents as [|i intents IH]; intros existing Hnd; simpl; [done|].
  apply IH. destruct i as [name ids|id name add rem]; simpl.
  - by apply dict_NoDup_set.
  - by rewrite dict_keys_alter.
Qed.

Section apply.
Variable fresh : string → GroupID.
Variable existing : list (string * Properties).
Hypothesis existing_NoDup : NoDup (Dict.keys existing).

(** Applying the mutations of one desired group settles that group and
    leaves the others as they are. *)
Lemma apply_steps_for name wanted current :
  Dict.get name current = Dict.get name existing →
  let current' :=
    apply_plan fresh (mutations (steps_for existing (name, wanted))) current
  in
  settled current' name wanted ∧
  (∀ name', name' ≠ name → Dict.get name' current' = Dict.get name' current).
Proof.
  intros Hget. rewrite mutations_steps_for by done.
  destruct (Dict.get name existing) as [group|] eqn:Hex; simpl.
  - pose proof (settled_after_update wanted (prop_members group)) as Hupd.
    simpl in Hupd.
    destruct (set_diff wanted (prop_members group)) as [|x add] eqn:Ha;
      [destruct (set_diff (prop_members group) wanted) as [|y rem] eqn:Hr|];
      simpl.
    + split; [|done]. by exists group.
    + split.
      * eexists. rewrite dict_get_alter, decide_True, Hget by done. simpl.
        rewrite decide_True by done. split; [done|]. simpl.
        rewrite app_nil_r in *. exact Hupd.
      * intros name' Hne. by rewrite dict_get_alter, decide_False.
    + split.
      * eexists. rewrite dict_get_alter, decide_True, Hget by done. simpl.
        rewrite decide_True by done. split; [done|]. simpl. exact Hupd.
      * intros name' Hne. by rewrite dict_get_alter, decide_False.
  - split.
    + eexists. rewrite dict_get_set, decide_True by done.
      split; [done|]. simpl. split; by apply set_diff_nil.
    + intros name' Hne. by rewrite dict_get_set, decide_False.
Qed.

Lemma apply_plan_settles okta_groups current :
  NoDup (Dict.keys okta_groups) →
  (∀ name, name ∈ Dict.keys okta_groups →
     Dict.get name current = Dict.get name existing) →
  let current' := apply_plan fresh (diff okta_groups existing) current in
  (∀ name wanted, (name, wanted) ∈ okta_groups →
     settled current' name wanted) ∧
  (∀ name, name ∉ Dict.keys okta_groups →
     Dict.get name current' = Dict.get name current).
Proof.
  rewrite diff_flat_map. unfold Dict.keys. revert current.
  induction okta_groups as [|[name wanted] okta_groups IH];
    intros current Hnd Hsame.
  - simpl. split; [|done]. intros name wanted Hin.
    by apply elem_of_nil in Hin.
  - rewrite fmap_cons, NoDup_cons in Hnd. destruct Hnd as [Hname Hnd].
    cbn [flat_map]. unfold apply_plan. rewrite foldl_app.
    fold (apply_plan fresh (mutations (steps_for existing (name, wanted)))
            current).
    destruct (apply_steps_for name wanted current) as [Hset Hother].
    { apply Hsame. rewrite fmap_cons. left. }
    set (current1 :=
      apply_plan fresh (mutations (steps_for existing (name, wanted)))
        current) in *.
    destruct (IH current1 Hnd) as [Hall Hrest].
    { intros name' Hin. rewrite Hother.
      - apply Hsame. rewrite fmap_cons. by right.
      - intros ->. done. }
    unfold apply_plan in Hall, Hrest. simpl. split.
    + intros name' wanted' Hin. apply elem_of_cons in Hin as [Heq|Hin].
      * simplify_eq. destruct Hset as (group & Hg & Hd).
        exists group. split; [|done]. by rewrite Hrest.
      * by apply Hall.
    + intros name' Hnot. rewrite ?fmap_cons, not_elem_of_cons in Hnot.
      destruct Hnot as [Hne Hnot]. rewrite Hrest by done. by apply Hother.
Qed.
End apply.

Lemma diff_settled okta_groups existing :
  NoDup (Dict.keys existing) →
  (∀ name wanted, (name, wanted) ∈ okta_groups → settled existing name wanted) →
  diff okta_groups existing = [].
Proof.
  intros Hnd Hall. rewrite diff_flat_map.
  induction okta_groups as [|[name wanted] okta_groups IH]; [done|].
  cbn [flat_map]. rewrite IH.
  - rewrite app_nil_r, mutations_steps_for by done.
    destruct (Hall name wanted) as (group & -> & -> & ->); [left|done].
  - intros name' wanted' Hin. apply Hall. by right.
Qed.

(** C6. Planning is idempotent: once the mutations of the diff are applied
    to the ClickUp groups (the created groups added with their members, the
    added and removed ids of every update applied to its group), the diff
    against the result is empty. *)
Theorem diff_idempotent fresh okta_groups clickup_groups :
  NoDup (Dict.keys okta_groups) →
  NoDup (Dict.keys clickup_groups) →
  diff okta_groups
    (apply_plan fresh (diff okta_groups clickup_groups) clickup_groups) = [].
Proof.
  intros Hokta Hclickup. apply diff_settled.
  - by apply NoDup_apply_plan.
  - by apply (apply_plan_settles fresh clickup_groups Hclickup okta_groups
                clickup_groups Hokta).
Qed.

Lemma diff_idempotent_witness :
  NoDup (Dict.keys ex_desired) ∧
  NoDup (Dict.keys ex_existing) ∧
  diff ex_desired
    (apply_plan (String.append "new-") (diff ex_desired ex_existing)
       ex_existing) = [].
Proof.
  assert (NoDup (Dict.keys ex_desired)) as Hd.
  { apply (bool_decide_unpack _). vm_compute. exact I. }
  assert (NoDup (Dict.keys ex_existing)) as He.
  { apply (bool_decide_unpack _). vm_compute. exact I. }
  split; [exact Hd|]. split; [exact He|].
  apply (diff_idempotent (String.append "new-") ex_desired ex_existing Hd He).
Defined.

(** * Further properties *)

(** ** Prefixes and suffixes *)

Lemma string_app_cons a (s t : string) : String a s +:+ t = String a (s +:+ t).
Proof. reflexivity. Qed.

Lemma string_app_nil_r (s : string) : s +:+ "" = s.
Proof.
  induction s as [|a s IH]; [done|]. by rewrite string_app_cons, IH.
Qed.

Lemma string_app_assoc (s t u : string) : (s +:+ t) +:+ u = s +:+ (t +:+ u).
Proof.
  induction s as [|a s IH]; [done|]. by rewrite !string_app_cons, IH.
Qed.

Lemma string_rev_app_acc (s acc1 acc2 : string) :
  String.rev_app s (acc1 +:+ acc2) = String.rev_app s acc1 +:+ acc2.
Proof.
  revert acc1. induction s as [|a s IH]; intros acc1; [done|].
  simpl. by rewrite <- IH, string_app_cons.
Qed.

Lemma string_rev_cons a (s : string) :
  String.rev (String a s) = String.rev s +:+ String a "".
Proof.
  unfold String.rev. simpl.
  by rewrite <- (string_rev_app_acc s "" (String a "")).
Qed.

Lemma string_rev_append (s t : string) :
  String.rev (s +:+ t) = String.rev t +:+ String.rev s.
Proof.
  induction s as [|a s IH].
  - change ("" +:+ t) with t. by rewrite string_app_nil_r.
  - by rewrite string_app_cons, !string_rev_cons, IH, string_app_assoc.
Qed.

Lemma string_rev_involutive (s : string) : String.rev (String.rev s) = s.
Proof.
  induction s as [|a s IH]; [done|].
  by rewrite string_rev_cons, string_rev_append, IH.
Qed.

Lemma string_prefix_spec (p s : string) :
  String.prefix p s = true ↔ ∃ rest, s = p +:+ rest.
Proof.
  revert s. induction p as [|a p IH]; intros s.
  - destruct s; (split; [intros _; by eexists | done]).
  - destruct s as [|b s]; simpl.
    + split; [done | intros [rest Hrest]; discriminate Hrest].
    + destruct (Ascii.ascii_dec a b) as [->|Hne].
      * rewrite IH. split; intros [rest Hrest]; exists rest.
        -- by rewrite Hrest.
        -- by injection Hrest.
      * split; [done|]. intros [rest Hrest]. injection Hrest as Hab _.
        by destruct Hne.
Qed.

Lemma startswith_spec name prefixes :
  startswith name prefixes = true ↔
  ∃ p rest, p ∈ prefixes ∧ name = p +:+ rest.
Proof.
  unfold startswith. rewrite existsb_exists. split.
  - intros (p & Hin & Hp). apply string_prefix_spec in Hp as [rest ->].
    exists p, rest. split; [by apply list_elem_of_In | done].
  - intros (p & rest & Hin & ->). exists p.
    split; [by apply list_elem_of_In|]. apply string_prefix_spec. by eexists.
Qed.

Lemma endswith_spec s suffix :
  endswith s suffix = true ↔ ∃ front, s = front +:+ suffix.
Proof.
  unfold endswith. rewrite string_prefix_spec. split.
  - intros [rest Hrest]. exists (String.rev rest).
    rewrite <- (string_rev_involutive s), Hrest, string_rev_append.
    by rewrite string_rev_involutive.
  - intros [front ->]. exists (String.rev front). apply string_rev_append.
Qed.

(** X1. A name passes the prefix filter of lines 93 and 138 exactly when
    one of the configured prefixes is an initial segment of it, and an
    address passes the domain filter of line 106 exactly when the domain is
    a final segment of it; an empty prefix lets every name pass. *)
Theorem filters_by_prefix_and_suffix name prefixes email domain :
  (startswith name prefixes = true ↔
   ∃ p rest, p ∈ prefixes ∧ name = p +:+ rest) ∧
  (endswith email domain = true ↔ ∃ front, email = front +:+ domain) ∧
  ("" ∈ prefixes → startswith name prefixes = true).
Proof.
  split_and!; [apply startswith_spec | apply endswith_spec |].
  intros Hin. apply startswith_spec. by exists "", name.
Qed.

Lemma filters_by_prefix_and_suffix_witness :
  "" ∈ ["eng-"; ""] ∧ startswith "sales" ["eng-"; ""] = true.
Proof.
  split; [apply (bool_decide_unpack _); vm_compute; exact I|].
  apply (filters_by_prefix_and_suffix "sales" ["eng-"; ""] "a@co.com" "@co.com").
  apply (bool_decide_unpack _). vm_compute. exact I.
Defined.

(** ** The two decoders *)

Lemma dict_set_set {V} (d : list (string * V)) k v v' :
  Dict.set k v (Dict.set k v' d) = Dict.set k v d.
Proof.
  induction d as [|[k0 v0] d IH]; simpl.
  - by rewrite decide_True.
  - destruct (decide (k = k0)) as [->|Hne]; simpl.
    + by rewrite decide_True.
    + rewrite decide_False by done. by rewrite IH.
Qed.

Lemma dict_elem_set {V} (d : list (string * V)) k v k' v' :
  (k', v') ∈ Dict.set k v d → (k', v') = (k, v) ∨ (k', v') ∈ d.
Proof.
  induction d as [|[k0 v0] d IH]; simpl.
  - intros Hin. apply list_elem_of_singleton in Hin. by left.
  - destruct (decide (k = k0)) as [->|Hne]; intros Hin;
      apply elem_of_cons in Hin as [Heq|Hin].
    + by left.
    + right. by right.
    + right. rewrite Heq. left.
    + destruct (IH Hin) as [?|?]; [by left | right; by right].
Qed.

Lemma dict_keys_get {V} (d : list (string * V)) k :
  k ∈ Dict.keys d ↔ is_Some (Dict.get k d).
Proof.
  rewrite <- not_eq_None_Some, dict_get_None.
  destruct (decide (k ∈ Dict.keys d)); naive_solver.
Qed.

Section collect.
Context {A V : Type}.
Variable keep : A → bool.
Variable key : A → string.
Variable val : A → V.

Lemma collect_snoc d l x :
  collect keep key val d (l ++ [x])
  = if keep x then Dict.set (key x) (val x) (collect keep key val d l)
    else collect keep key val d l.
Proof. unfold collect. by rewrite foldl_app. Qed.

Lemma NoDup_collect d l :
  NoDup (Dict.keys d) → NoDup (Dict.keys (collect keep key val d l)).
Proof.
  revert d. induction l as [|x l IH]; intros d Hd; [done|].
  apply IH. destruct (keep x); [by apply dict_NoDup_set | done].
Qed.

(** The names stored are those of the entries kept. *)
Lemma collect_keys d l k :
  k ∈ Dict.keys (collect keep key val d l) ↔
  k ∈ Dict.keys d ∨ ∃ x, x ∈ l ∧ keep x = true ∧ key x = k.
Proof.
  revert d. induction l as [|x l IH]; intros d.
  - simpl. split; [by left|]. intros [?|(x & Hx & _)]; [done|].
    by apply elem_of_nil in Hx.
  - change (collect keep key val d (x :: l)) with
      (collect keep key val
         (if keep x then Dict.set (key x) (val x) d else d) l).
    rewrite IH. destruct (keep x) eqn:Hkeep.
    + rewrite !dict_keys_get, dict_get_set. split.
      * intros [Hk|(y & Hy & Hky & <-)].
        -- destruct (decide (k = key x)) as [->|Hne]; [|by left].
           right. exists x. split; [left | done].
        -- right. exists y. split; [by right | done].
      * intros [Hk|(y & Hy & Hky & <-)].
        -- left. by destruct (decide (k = key x)).
        -- apply elem_of_cons in Hy as [->|Hy].
           ++ left. by rewrite decide_True.
           ++ right. by exists y.
    + split.
      * intros [Hk|(y & Hy & Hky & <-)]; [by left|].
        right. exists y. split; [by right | done].
      * intros [Hk|(y & Hy & Hky & <-)]; [by left|].
        apply elem_of_cons in Hy as [->|Hy]; [congruence|].
        right. by exists y.
Qed.

(** Every value stored is the value of an entry kept under that name. *)
Lemma collect_elem d l k v :
  (k, v) ∈ collect keep key val d l →
  (k, v) ∈ d ∨ ∃ x, x ∈ l ∧ keep x = true ∧ key x = k ∧ val x = v.
Proof.
  revert d. induction l as [|x l IH]; intros d; [by left|].
  change (collect keep key val d (x :: l)) with
    (collect keep key val
       (if keep x then Dict.set (key x) (val x) d else d) l).
  intros Hin. apply IH in Hin as [Hin|(y & Hy & Hky & Hk & Hv)].
  - destruct (keep x) eqn:Hkeep; [|by left].
    apply dict_elem_set in Hin as [Heq|Hin]; [|by left].
    simplify_eq. right. exists x. split; [left | done].
  - right. exists y. split; [by right | done].
Qed.

(** The names come in the order of their first kept entry. *)
Lemma collect_order d l :
  ∃ ks, Dict.keys (collect keep key val d l) = Dict.keys d ++ ks ∧
        ks `sublist_of` key <$> l.
Proof.
  revert d. induction l as [|x l IH]; intros d.
  - exists []. by rewrite app_nil_r.
  - change (collect keep key val d (x :: l)) with
      (collect keep key val
         (if keep x then Dict.set (key x) (val x) d else d) l).
    destruct (IH (if keep x then Dict.set (key x) (val x) d else d))
      as (ks & Hks & Hsub).
    rewrite fmap_cons.
    destruct (keep x); [|exists ks; split; [done | by apply sublist_cons]].
    destruct (decide (key x ∈ Dict.keys d)) as [Hin|Hin].
    + exists ks. split; [|by apply sublist_cons].
      by rewrite Hks, dict_keys_set_mem.
    + exists (key x :: ks). split; [|by apply sublist_skip].
      rewrite Hks, dict_set_fresh by done.
      unfold Dict.keys. rewrite fmap_app. simpl.
      by rewrite <- app_assoc.
Qed.

(** Of several kept entries with one name, the last one is stored. *)
Lemma collect_last d l1 x l2 :
  keep x = true →
  (∀ y, y ∈ l2 → key y ≠ key x) →
  Dict.get (key x) (collect keep key val d (l1 ++ x :: l2)) = Some (val x).
Proof.
  intros Hkeep. induction l2 as [|y l2 IH] using rev_ind; intros Hlater.
  - rewrite collect_snoc, Hkeep, dict_get_set. by rewrite decide_True.
  - change (l1 ++ x :: l2 ++ [y]) with (l1 ++ (x :: l2) ++ [y]).
    rewrite app_assoc, collect_snoc.
    assert (key y ≠ key x) as Hne.
    { apply Hlater. apply elem_of_app. right. left. }
    assert (Dict.get (key x) (collect keep key val d (l1 ++ x :: l2))
            = Some (val x)) as Hget.
    { apply IH. intros z Hz. apply Hlater. apply elem_of_app. by left. }
    destruct (keep y); [|done].
    rewrite dict_get_set. by rewrite decide_False.
Qed.
End collect.

Lemma foldl_pointwise {A B} (f g : A → B → A) (l : list B) (a : A) :
  (∀ a x, f a x = g a x) → foldl f a l = foldl g a l.
Proof.
  intros Hfg. revert a. induction l as [|x l IH]; intros a; [done|].
  simpl. by rewrite Hfg, IH.
Qed.

Lemma get_okta_groups_collect cfg okta_groups users_of :
  get_okta_groups cfg okta_groups users_of
  = collect (λ g, startswith (okta_name g) (OKTA_GROUP_PREFIXES cfg))
      okta_name (okta_emails cfg users_of) [] okta_groups.
Proof.
  unfold get_okta_groups, collect. apply foldl_pointwise.
  intros d g. destruct (startswith _ _); simpl; [|done].
  by rewrite dict_set_set.
Qed.

Lemma get_clickup_groups_collect cfg groups :
  get_clickup_groups cfg groups
  = collect (λ g, startswith (group_name g) (OKTA_GROUP_PREFIXES cfg))
      group_name clickup_properties [] groups.
Proof. done. Qed.

(** The names are stored in the order of their first kept entry. *)
Lemma collect_first_occurrences {A V} (keep : A → bool) (key : A → string)
    (val : A → V) d l :
  Dict.keys (collect keep key val d l)
  = Dict.keys d
    ++ filter (λ k, k ∉ Dict.keys d)
         (first_occurrences (key <$> filter (λ x, keep x = true) l)).
Proof.
  revert d. induction l as [|x l IH]; intros d.
  - simpl. by rewrite app_nil_r.
  - change (collect keep key val d (x :: l)) with
      (collect keep key val
         (if keep x then Dict.set (key x) (val x) d else d) l).
    rewrite IH. destruct (keep x) eqn:Hkeep.
    + rewrite filter_cons_True by done. rewrite fmap_cons. simpl.
      destruct (decide (key x ∈ Dict.keys d)) as [Hin|Hin].
      * rewrite dict_keys_set_mem by done.
        rewrite filter_cons_False by (intros Hn; by apply Hn).
        f_equal. rewrite list_filter_filter. apply list_filter_iff.
        intros k. split; [|by intros [? _]].
        intros Hk. split; [done|]. by intros ->.
      * rewrite dict_set_fresh by done. rewrite filter_cons_True by done.
        rewrite list_filter_filter.
        rewrite (list_filter_iff
          (λ k, k ∉ Dict.keys (d ++ [(key x, val x)]))
          (λ k, (k ∉ Dict.keys d) ∧ k ≠ key x)).
        -- unfold Dict.keys. rewrite fmap_app. simpl.
           by rewrite <- app_assoc.
        -- intros k. unfold Dict.keys. rewrite fmap_app. simpl.
           by rewrite not_elem_of_app, list_elem_of_singleton.
    + rewrite filter_cons_False by (by rewrite Hkeep). done.
Qed.

Lemma fmap_filter_key {A} (keep : string → bool) (key : A → string)
    (l : list A) :
  key <$> filter (λ x, keep (key x) = true) l
  = filter (λ k, keep k = true) (key <$> l).
Proof.
  induction l as [|x l IH]; [done|]. rewrite fmap_cons.
  destruct (keep (key x)) eqn:Hkeep.
  - rewrite !filter_cons_True by done. rewrite fmap_cons. by rewrite IH.
  - rewrite !filter_cons_False by (by rewrite Hkeep). done.
Qed.

Lemma filter_not_in_nil (l : list string) :
  filter (λ k, k ∉ Dict.keys (@nil (string * list string))) l = l ∧
  filter (λ k, k ∉ Dict.keys (@nil (string * Properties))) l = l.
Proof.
  split; (induction l as [|x l IH]; [done|]);
    (rewrite filter_cons_True by apply not_elem_of_nil); by rewrite IH.
Qed.

(** X2. The keys of [get_okta_groups] are the names of the Okta groups that
    start with a configured prefix, each once, in the order in which Okta
    first lists them: they are the first occurrences of the names that pass
    the filter. *)
Theorem get_okta_groups_names cfg okta_groups users_of :
  let result := get_okta_groups cfg okta_groups users_of in
  (∀ name, name ∈ Dict.keys result ↔
     startswith name (OKTA_GROUP_PREFIXES cfg) = true ∧
     name ∈ okta_name <$> okta_groups) ∧
  NoDup (Dict.keys result) ∧
  Dict.keys result `sublist_of` okta_name <$> okta_groups ∧
  Dict.keys result
  = first_occurrences
      (filter (λ name, startswith name (OKTA_GROUP_PREFIXES cfg) = true)
         (okta_name <$> okta_groups)).
Proof.
  intros result. unfold result. rewrite get_okta_groups_collect.
  split_and!.
  - intros name. rewrite collect_keys, list_elem_of_fmap. split.
    + intros [Hnil|(g & Hg & Hkeep & <-)]; [by apply elem_of_nil in Hnil|].
      split; [done | by exists g].
    + intros (Hkeep & g & -> & Hg). right. by exists g.
  - apply NoDup_collect, NoDup_nil_2.
  - destruct (collect_order
      (λ g, startswith (okta_name g) (OKTA_GROUP_PREFIXES cfg)) okta_name
      (okta_emails cfg users_of) [] okta_groups) as (ks & -> & Hsub).
    done.
  - rewrite collect_first_occurrences. simpl.
    rewrite (proj1 (filter_not_in_nil _)).
    by rewrite (fmap_filter_key
      (λ name, startswith name (OKTA_GROUP_PREFIXES cfg)) okta_name).
Qed.

(** The keys of a listing with a repeated name. *)
Example get_okta_groups_names_twice :
  Dict.keys (get_okta_groups (ex_cfg false)
    [{| okta_id := "og1"; okta_name := "eng-a" |};
     {| okta_id := "og2"; okta_name := "eng-b" |};
     {| okta_id := "og3"; okta_name := "eng-a" |}] ex_users_of)
  = ["eng-a"; "eng-b"].
Proof. vm_compute. reflexivity. Qed.

(** X3. When Okta lists several groups of one name, [get_okta_groups]
    stores the addresses of the last of them: the members of the earlier
    ones are lost. *)
Theorem get_okta_groups_last_wins cfg before g after users_of :
  startswith (okta_name g) (OKTA_GROUP_PREFIXES cfg) = true →
  (∀ g', g' ∈ after → okta_name g' ≠ okta_name g) →
  Dict.get (okta_name g)
    (get_okta_groups cfg (before ++ g :: after) users_of)
  = Some (filter (λ email, endswith email (EMAIL_DOMAIN cfg) = true)
            (users_of (okta_id g))).
Proof.
  intros Hkeep Hlater. rewrite get_okta_groups_collect.
  by rewrite (collect_last _ okta_name (okta_emails cfg users_of)).
Qed.

Lemma get_okta_groups_last_wins_witness :
  Dict.get "eng-backend"
    (get_okta_groups (ex_cfg false) ex_okta_twice ex_users_of)
  = Some ["a@co.com"; "c@co.com"].
Proof.
  apply (get_okta_groups_last_wins (ex_cfg false)
           [{| okta_id := "og1"; okta_name := "eng-backend" |};
            {| okta_id := "og4"; okta_name := "sales" |}]
           {| okta_id := "og2"; okta_name := "eng-backend" |} [] ex_users_of).
  - vm_compute. reflexivity.
  - intros g' Hin. by apply elem_of_nil in Hin.
Defined.

(** X4. Every address [get_okta_groups] stores under a name ends with the
    configured domain and is an address of the users of an Okta group of
    that name, which starts with a configured prefix. *)
Theorem get_okta_groups_addresses cfg okta_groups users_of name emails email :
  (name, emails) ∈ get_okta_groups cfg okta_groups users_of →
  email ∈ emails →
  endswith email (EMAIL_DOMAIN cfg) = true ∧
  startswith name (OKTA_GROUP_PREFIXES cfg) = true ∧
  ∃ g, g ∈ okta_groups ∧ okta_name g = name ∧
       email ∈ users_of (okta_id g).
Proof.
  rewrite get_okta_groups_collect. intros Hin Hemail.
  apply collect_elem in Hin as [Hnil|(g & Hg & Hkeep & <- & <-)];
    [by apply elem_of_nil in Hnil|].
  unfold okta_emails in Hemail.
  apply list_elem_of_filter in Hemail as [Hend Hemail].
  split_and!; [done | done | by exists g].
Qed.

Lemma get_okta_groups_addresses_witness :
  endswith "b@co.com" (EMAIL_DOMAIN (ex_cfg false)) = true ∧
  startswith "eng-backend" (OKTA_GROUP_PREFIXES (ex_cfg false)) = true ∧
  ∃ g, g ∈ ex_okta_groups ∧ okta_name g = "eng-backend" ∧
       "b@co.com" ∈ ex_users_of (okta_id g).
Proof.
  apply (get_okta_groups_addresses (ex_cfg false) ex_okta_groups ex_users_of
           "eng-backend" ["a@co.com"; "b@co.com"] "b@co.com").
  - apply (bool_decide_unpack _). vm_compute. exact I.
  - apply (bool_decide_unpack _). vm_compute. exact I.
Defined.

(** X5. The keys of [get_clickup_groups] are the names of the ClickUp
    groups that start with a configured prefix, each once, in the order of
    their first listing: they are the first occurrences of the names that
    pass the filter. Every value stored is the id and the member ids of a
    listed group of that name. *)
Theorem get_clickup_groups_entries cfg groups :
  let result := get_clickup_groups cfg groups in
  (∀ name, name ∈ Dict.keys result ↔
     startswith name (OKTA_GROUP_PREFIXES cfg) = true ∧
     name ∈ group_name <$> groups) ∧
  NoDup (Dict.keys result) ∧
  Dict.keys result `sublist_of` group_name <$> groups ∧
  (∀ name properties, (name, properties) ∈ result →
     ∃ g, g ∈ groups ∧ group_name g = name ∧
          prop_id properties = group_id g ∧
          prop_members properties = member_id <$> group_members g) ∧
  Dict.keys result
  = first_occurrences
      (filter (λ name, startswith name (OKTA_GROUP_PREFIXES cfg) = true)
         (group_name <$> groups)).
Proof.
  intros result. unfold result. rewrite get_clickup_groups_collect.
  split_and!.
  - intros name. rewrite collect_keys, list_elem_of_fmap. split.
    + intros [Hnil|(g & Hg & Hkeep & <-)]; [by apply elem_of_nil in Hnil|].
      split; [done | by exists g].
    + intros (Hkeep & g & -> & Hg). right. by exists g.
  - apply NoDup_collect, NoDup_nil_2.
  - destruct (collect_order
      (λ g, startswith (group_name g) (OKTA_GROUP_PREFIXES cfg)) group_name
      clickup_properties [] groups) as (ks & -> & Hsub).
    done.
  - intros name properties Hin.
    apply collect_elem in Hin as [Hnil|(g & Hg & Hkeep & <- & <-)];
      [by apply elem_of_nil in Hnil|].
    by exists g.
  - rewrite collect_first_occurrences. simpl.
    rewrite (proj2 (filter_not_in_nil _)).
    by rewrite (fmap_filter_key
      (λ name, startswith name (OKTA_GROUP_PREFIXES cfg)) group_name).
Qed.

(** X6. When ClickUp lists several groups of one name, [get_clickup_groups]
    stores the id and the members of the last of them, so that only that
    group can be updated. *)
Theorem get_clickup_groups_last_wins cfg before g after :
  startswith (group_name g) (OKTA_GROUP_PREFIXES cfg) = true →
  (∀ g', g' ∈ after → group_name g' ≠ group_name g) →
  Dict.get (group_name g) (get_clickup_groups cfg (before ++ g :: after))
  = Some {| prop_id := group_id g;
            prop_members := map member_id (group_members g) |}.
Proof.
  intros Hkeep Hlater. rewrite get_clickup_groups_collect.
  by rewrite (collect_last _ group_name clickup_properties).
Qed.

Lemma get_clickup_groups_last_wins_witness :
  Dict.get "eng-frontend" (get_clickup_groups (ex_cfg false) ex_groups_twice)
  = Some {| prop_id := "g-front"; prop_members := [11; 15] |}.
Proof.
  apply (get_clickup_groups_last_wins (ex_cfg false)
           [{| group_id := "g-old"; group_name := "eng-frontend";
               group_members := [{| member_id := 16 |}] |}]
           {| group_id := "g-front"; group_name := "eng-frontend";
              group_members := [{| member_id := 11 |}; {| member_id := 15 |}] |}
           []).
  - vm_compute. reflexivity.
  - intros g' Hin. by apply elem_of_nil in Hin.
Defined.

(** ** More on [match_users] *)

Lemma elem_of_matches clickup email x :
  x ∈ matches clickup email ↔
  ∃ user, user ∈ clickup ∧ user_email user = email ∧ user_id user = x.
Proof.
  unfold matches. rewrite list_elem_of_fmap. split.
  - intros (user & -> & Hin). apply list_elem_of_filter in Hin as [Hmail Hin].
    by exists user.
  - intros (user & Hin & Hmail & <-). exists user. split; [done|].
    by apply list_elem_of_filter.
Qed.

Lemma elem_of_desired_ids clickup emails x :
  x ∈ desired_ids clickup emails ↔
  ∃ user, user ∈ clickup ∧ user_email user ∈ emails ∧ user_id user = x.
Proof.
  unfold desired_ids. rewrite elem_of_flat_map. split.
  - intros (email & Hemail & Hx).
    apply elem_of_matches in Hx as (user & Hin & <- & <-). by exists user.
  - intros (user & Hin & Hmail & <-). exists (user_email user).
    split; [done|]. apply elem_of_matches. by exists user.
Qed.

Lemma elem_of_resolved_groups okta clickup group ids :
  (group, ids) ∈ resolved_groups okta clickup ↔
  ∃ emails, (group, emails) ∈ okta ∧ ids = desired_ids clickup emails ∧
            ids ≠ [].
Proof.
  unfold resolved_groups. rewrite list_elem_of_omap. split.
  - intros ([g emails] & Hin & Heq).
    destruct (desired_ids clickup emails) as [|i rest] eqn:E; simplify_eq.
    exists emails. by rewrite E.
  - intros (emails & Hin & -> & Hne). exists (group, emails).
    split; [done|]. by destruct (desired_ids clickup emails).
Qed.

Lemma resolved_groups_sublist okta clickup :
  Dict.keys (resolved_groups okta clickup) `sublist_of` Dict.keys okta.
Proof.
  unfold Dict.keys, resolved_groups.
  induction okta as [|[group emails] okta IH]; [done|].
  rewrite fmap_cons. simpl.
  destruct (desired_ids clickup emails); simpl.
  - by apply sublist_cons.
  - by apply sublist_skip.
Qed.

Lemma match_users_no_roster okta : match_users okta [] = [].
Proof.
  unfold match_users.
  match goal with |- foldl ?f _ _ = _ =>
    enough (∀ gm, foldl f gm okta = gm) as Hgen by apply Hgen end.
  induction okta as [|[group emails] okta IH]; intros gm; [done|].
  simpl. rewrite <- (IH gm) at 2. f_equal.
  clear IH. induction emails as [|email emails IH]; [done|]. apply IH.
Qed.

(** X7. The ids [match_users] gives a group are exactly the ids of the
    roster entries whose address is one of the group's addresses: no id is
    invented, and no such roster entry is left out. *)
Theorem match_users_members okta clickup group emails ids x :
  NoDup (Dict.keys okta) →
  (group, emails) ∈ okta →
  Dict.get group (match_users okta clickup) = Some ids →
  x ∈ ids ↔
  ∃ user, user ∈ clickup ∧ user_email user ∈ emails ∧ user_id user = x.
Proof.
  intros Hnd Hin Hget. rewrite match_users_resolved in Hget by done.
  apply dict_get_Some_elem in Hget.
  apply elem_of_resolved_groups in Hget as (emails' & Hin' & -> & _).
  assert (emails' = emails) as ->.
  { apply (dict_elem_get _ _ _ Hnd) in Hin, Hin'. congruence. }
  apply elem_of_desired_ids.
Qed.

Lemma match_users_members_witness :
  (13 : UserID) ∈ ([11; 13] : list UserID) ↔
  ∃ user, user ∈ ex_roster ∧ user_email user ∈ ["a@co.com"; "c@co.com"] ∧
          user_id user = 13.
Proof.
  apply (match_users_members
           (get_okta_groups (ex_cfg false) ex_okta_groups ex_users_of)
           ex_roster "eng-frontend" ["a@co.com"; "c@co.com"] [11; 13] 13).
  - apply (bool_decide_unpack _). vm_compute. exact I.
  - apply (bool_decide_unpack _). vm_compute. exact I.
  - vm_compute. reflexivity.
Defined.

(** X8. The result of [match_users] keeps the groups in the order of the
    Okta dictionary, never repeats a name and never holds an empty list of
    ids: a group without any matched address has no entry. *)
Theorem match_users_shape okta clickup :
  NoDup (Dict.keys okta) →
  let result := match_users okta clickup in
  Dict.keys result `sublist_of` Dict.keys okta ∧
  NoDup (Dict.keys result) ∧
  (∀ group ids, (group, ids) ∈ result → ids ≠ []) ∧
  (∀ group, group ∈ Dict.keys result ↔
     ∃ emails user, (group, emails) ∈ okta ∧ user ∈ clickup ∧
                    user_email user ∈ emails).
Proof.
  intros Hnd result. unfold result. rewrite match_users_resolved by done.
  split_and!.
  - apply resolved_groups_sublist.
  - by apply NoDup_resolved_groups.
  - intros group ids Hin.
    by apply elem_of_resolved_groups in Hin as (_ & _ & _ & Hne).
  - intros group. unfold Dict.keys. rewrite list_elem_of_fmap. split.
    + intros ([g ids] & -> & Hin).
      apply elem_of_resolved_groups in Hin as (emails & Hin & -> & Hne).
      destruct (desired_ids clickup emails) as [|x rest] eqn:E; [done|].
      assert (x ∈ desired_ids clickup emails) as Hx by (rewrite E; left).
      apply elem_of_desired_ids in Hx as (user & Hu & Hmail & _).
      by exists emails, user.
    + intros (emails & user & Hin & Hu & Hmail).
      exists (group, desired_ids clickup emails). split; [done|].
      apply elem_of_resolved_groups. exists emails. split_and!; [done..|].
      intros E.
      assert (user_id user ∈ desired_ids clickup emails) as Hx.
      { apply elem_of_desired_ids. by exists user. }
      rewrite E in Hx. by apply elem_of_nil in Hx.
Qed.

Lemma match_users_shape_witness :
  NoDup (Dict.keys (get_okta_groups (ex_cfg false) ex_okta_groups ex_users_of))
  ∧ Dict.keys (match_users
      (get_okta_groups (ex_cfg false) ex_okta_groups ex_users_of) ex_roster)
    `sublist_of`
    Dict.keys (get_okta_groups (ex_cfg false) ex_okta_groups ex_users_of).
Proof.
  assert (NoDup (Dict.keys
    (get_okta_groups (ex_cfg false) ex_okta_groups ex_users_of))) as Hnd.
  { apply (bool_decide_unpack _). vm_compute. exact I. }
  split; [exact Hnd|].
  apply (match_users_shape _ ex_roster Hnd).
Defined.

(** X9. With an empty roster, or without Okta groups, the loop of
    [sync_groups] does nothing at all: it ends normally and adds no request
    and no log line to the trace, whatever the ClickUp groups hold. *)
Theorem nothing_to_match_no_effect cfg server okta_groups users_of
    clickup_users groups tr :
  sync_groups cfg server okta_groups users_of [] groups tr = (inr (), tr) ∧
  sync_groups cfg server [] users_of clickup_users groups tr = (inr (), tr).
Proof.
  unfold sync_groups. split.
  - by rewrite match_users_no_roster.
  - done.
Qed.

(** ** More on the plan *)

Lemma elem_of_desired cfg okta_groups users_of clickup_users name wanted :
  (name, wanted)
    ∈ match_users (get_okta_groups cfg okta_groups users_of) clickup_users →
  ∃ emails, (name, emails) ∈ get_okta_groups cfg okta_groups users_of ∧
            wanted = desired_ids clickup_users emails.
Proof.
  rewrite match_users_resolved by apply NoDup_get_okta_groups.
  intros Hin. apply elem_of_resolved_groups in Hin as (emails & ? & ? & _).
  by exists emails.
Qed.

Lemma elem_of_existing cfg groups name properties :
  (name, properties) ∈ get_clickup_groups cfg groups →
  ∃ g, g ∈ groups ∧
       startswith (group_name g) (OKTA_GROUP_PREFIXES cfg) = true ∧
       group_name g = name ∧ clickup_properties g = properties.
Proof.
  rewrite get_clickup_groups_collect. intros Hin.
  apply collect_elem in Hin as [Hnil|(g & ? & ? & ? & ?)];
    [by apply elem_of_nil in Hnil|].
  by exists g.
Qed.

(** X10. No mutation of a run carries an invented id: the members of a
    created group and the ids added to a group are ids of roster entries,
    and the ids removed from a group are members ClickUp lists for a group
    of that id and name. *)
Theorem plan_ids_are_known cfg okta_groups users_of clickup_users groups i :
  i ∈ plan cfg okta_groups users_of clickup_users groups →
  match i with
  | CreateGroup _ memberIds =>
      ∀ x, x ∈ memberIds → x ∈ user_id <$> clickup_users
  | UpdateGroup id name addIds removeIds =>
      (∀ x, x ∈ addIds → x ∈ user_id <$> clickup_users) ∧
      (∀ x, x ∈ removeIds →
         ∃ g, g ∈ groups ∧ group_id g = id ∧ group_name g = name ∧
              x ∈ member_id <$> group_members g)
  end.
Proof.
  unfold plan. intros Hi.
  apply elem_of_diff in Hi as (name & wanted & Hwanted & Hcase).
  apply elem_of_desired in Hwanted as (emails & _ & ->).
  assert (∀ x, x ∈ desired_ids clickup_users emails →
               x ∈ user_id <$> clickup_users) as Hroster.
  { intros x Hx. apply elem_of_desired_ids in Hx as (user & Hu & _ & <-).
    by apply list_elem_of_fmap_2. }
  destruct Hcase as [[-> _]|(p & Hp & -> & _)]; [done|].
  apply elem_of_existing in Hp as (g & Hg & _ & Hname & <-).
  split.
  - intros x Hx. apply elem_of_set_diff in Hx as [Hx _]. by apply Hroster.
  - intros x Hx. apply elem_of_set_diff in Hx as [Hx _]. by exists g.
Qed.

Lemma plan_ids_are_known_witness :
  (∀ x : UserID, x ∈ ([13] : list UserID) → x ∈ user_id <$> ex_roster) ∧
  (∀ x : UserID, x ∈ ([15] : list UserID) →
     ∃ g, g ∈ ex_groups ∧ group_id g = "g-front" ∧
          group_name g = "eng-frontend" ∧ x ∈ member_id <$> group_members g).
Proof.
  apply (plan_ids_are_known (ex_cfg false) ex_okta_groups ex_users_of
           ex_roster ex_groups (UpdateGroup "g-front" "eng-frontend" [13] [15])).
  apply (bool_decide_unpack _). vm_compute. exact I.
Defined.

(** X11. Every mutation of a run concerns a group whose name starts with a
    configured prefix. *)
Theorem plan_names_have_prefix cfg okta_groups users_of clickup_users groups i :
  i ∈ plan cfg okta_groups users_of clickup_users groups →
  startswith (intent_name i) (OKTA_GROUP_PREFIXES cfg) = true.
Proof.
  unfold plan. intros Hi.
  apply elem_of_diff in Hi as (name & wanted & Hwanted & Hcase).
  apply elem_of_desired in Hwanted as (emails & Hin & _).
  assert (startswith name (OKTA_GROUP_PREFIXES cfg) = true) as Hname.
  { rewrite get_okta_groups_collect in Hin.
    apply collect_elem in Hin as [Hnil|(g & _ & Hkeep & <- & _)];
      [by apply elem_of_nil in Hnil | done]. }
  by destruct Hcase as [[-> _]|(p & _ & -> & _)].
Qed.

Lemma plan_names_have_prefix_witness :
  startswith "eng-backend" (OKTA_GROUP_PREFIXES (ex_cfg false)) = true.
Proof.
  apply (plan_names_have_prefix (ex_cfg false) ex_okta_groups ex_users_of
           ex_roster ex_groups (CreateGroup "eng-backend" [11; 12])).
  apply (bool_decide_unpack _). vm_compute. exact I.
Defined.

(** X12. A ClickUp group whose name starts with none of the configured
    prefixes is never updated: in no run is a request sent to the URL of its
    id, even when Okta has a group of that name. Ids identify the listed
    ClickUp groups. *)
Theorem unprefixed_group_untouched cfg server okta_groups users_of
    clickup_users groups g r :
  g ∈ groups →
  startswith (group_name g) (OKTA_GROUP_PREFIXES cfg) = false →
  NoDup (group_id <$> groups) →
  r ∈ sent (snd (sync_groups cfg server okta_groups users_of clickup_users
                   groups [])) →
  req_url r ≠ update_url cfg (group_id g).
Proof.
  intros Hg Hprefix Hids Hr. rewrite sync_groups_execute in Hr.
  apply execute_sent in Hr as [Hr|Hr]; [by apply elem_of_nil in Hr|].
  apply list_elem_of_fmap in Hr as (i & -> & Hi).
  change (i ∈ diff
    (match_users (get_okta_groups cfg okta_groups users_of) clickup_users)
    (get_clickup_groups cfg groups)) in Hi.
  apply elem_of_diff in Hi as (name & wanted & _ & Hcase).
  destruct Hcase as [[-> _]|(p & Hp & -> & _)]; simpl.
  - apply create_url_update_url.
  - intros E. apply update_url_inj in E.
    apply elem_of_existing in Hp as (g' & Hg' & Hkeep & _ & <-).
    simpl in E.
    assert (g' = g) as -> by by apply (NoDup_fmap_elem group_id groups).
    congruence.
Qed.

Lemma unprefixed_group_untouched_witness :
  let r := {| req_method := PUT;
              req_url := update_url (ex_cfg false) "g-front";
              req_json := UpdatePayload
                (Some {| delta_add := Some [13]; delta_rem := Some [15] |}) |}
  in
  r ∈ sent (snd (sync_groups (ex_cfg false) ex_ok_server ex_okta_groups
                   ex_users_of ex_roster ex_groups [])) ∧
  req_url r ≠ update_url (ex_cfg false) "g-mkt".
Proof.
  intros r.
  assert (r ∈ sent (snd (sync_groups (ex_cfg false) ex_ok_server
                           ex_okta_groups ex_users_of ex_roster ex_groups [])))
    as Hr.
  { apply (bool_decide_unpack _). vm_compute. exact I. }
  split; [exact Hr|].
  apply (unprefixed_group_untouched (ex_cfg false) ex_ok_server ex_okta_groups
           ex_users_of ex_roster ex_groups
           {| group_id := "g-mkt"; group_name := "marketing";
              group_members := [{| member_id := 15 |}] |} r).
  - apply (bool_decide_unpack _). vm_compute. exact I.
  - vm_compute. reflexivity.
  - apply (bool_decide_unpack _). vm_compute. exact I.
  - exact Hr.
Defined.

(** X13. When no desired name is a ClickUp name, in particular when ClickUp
    has no group yet, the loop decides one creation per desired group, in
    the order of the desired groups, and nothing else. *)
Theorem diff_creates_missing okta_groups clickup_groups :
  (∀ name, name ∈ Dict.keys okta_groups → name ∉ Dict.keys clickup_groups) →
  diff okta_groups clickup_groups
  = (λ entry, CreateGroup entry.1 entry.2) <$> okta_groups.
Proof.
  rewrite diff_flat_map. unfold Dict.keys.
  induction okta_groups as [|[name wanted] okta_groups IH]; intros Hnew;
    [done|].
  cbn [flat_map]. rewrite fmap_cons, IH.
  - assert (name ∉ Dict.keys clickup_groups) as Habs.
    { apply Hnew. rewrite fmap_cons. left. }
    unfold steps_for. rewrite update_steps_absent by done.
    apply dict_mem_false in Habs. by rewrite Habs.
  - intros n Hn. apply Hnew. rewrite fmap_cons. by right.
Qed.

Lemma diff_creates_missing_witness :
  diff ex_desired []
  = [CreateGroup "eng-backend" [11; 12]; CreateGroup "eng-frontend" [11; 13];
     CreateGroup "ops-core" [14]].
Proof.
  apply (diff_creates_missing ex_desired []).
  intros name _. apply not_elem_of_nil.
Defined.

(** ** More on the runs *)

Lemma logged_payloads_snoc tr e :
  logged_payloads (tr ++ [e]) = logged_payloads tr ++ logged_payloads [e].
Proof. apply omap_app. Qed.

Lemma logged_urls_snoc tr e :
  logged_urls (tr ++ [e]) = logged_urls tr ++ logged_urls [e].
Proof. apply omap_app. Qed.

Lemma unchanged_notices_snoc tr e :
  unchanged_notices (tr ++ [e])
  = unchanged_notices tr ++ unchanged_notices [e].
Proof. apply omap_app. Qed.

Ltac observe_log :=
  repeat (rewrite ?sent_snoc, ?logged_payloads_snoc, ?logged_urls_snoc,
            ?unchanged_notices_snoc;
          simpl; rewrite <- ?app_assoc, ?app_nil_r; simpl).

Section more_runs.
Variable cfg : Config.
Variable server : Server.

(** In a live run the request of a step is in the trace however the step
    ends. *)
Lemma perform_live_sent s tr :
  DRY_RUN cfg = false →
  sent (snd (perform cfg server s tr))
  = sent tr ++ (request_of cfg <$> mutations [s]).
Proof.
  intros Hlive. destruct s as [[name ids|id name add rem]|name];
    unfold_step; rewrite ?Hlive; simpl.
  - destruct (server _ _) as [response|]; simpl; [|by observe].
    destruct (DEBUG cfg); simpl; [|by observe].
    destruct (json response); simpl; by observe.
  - destruct (0 <? length add)%nat, (0 <? length rem)%nat; simpl.
    all: destruct (server _ _) as [response|]; simpl; [|by observe].
    all: destruct (DEBUG cfg); simpl; [|by observe].
    all: destruct (json response); simpl; by observe.
  - by observe.
Qed.

(** Only a live mutation can fail, and decoding only with [DEBUG] on. *)
Lemma perform_failure s tr e :
  fst (perform cfg server s tr) = inl e →
  DRY_RUN cfg = false ∧ (e = JSONDecodeError → DEBUG cfg = true) ∧
  ∃ i, s = Mutate i.
Proof.
  destruct (DRY_RUN cfg) eqn:Hdry.
  { destruct (perform_dry_run cfg server s tr Hdry) as (tr' & -> & _). done. }
  destruct s as [[name ids|id name add rem]|name];
    unfold_step; rewrite ?Hdry; simpl.
  - destruct (server _ _) as [response|]; simpl.
    + destruct (DEBUG cfg); simpl; [|done].
      destruct (json response); simpl; [done|].
      intros _. split_and!; [done | done | by eexists].
    + intros [= <-]. split_and!; [done | done | by eexists].
  - destruct (0 <? length add)%nat, (0 <? length rem)%nat; simpl.
    all: destruct (server _ _) as [response|]; simpl;
      [|intros [= <-]; split_and!; [done | done | by eexists]].
    all: destruct (DEBUG cfg); simpl; [|done].
    all: destruct (json response); simpl; [done|].
    all: intros _; split_and!; [done | done | by eexists].
  - done.
Qed.

Lemma execute_prefix steps tr :
  ∃ rs, sent (snd (execute cfg server steps tr)) = sent tr ++ rs ∧
    rs `prefix_of` (request_of cfg <$> mutations steps) ∧
    (DRY_RUN cfg = false → fst (execute cfg server steps tr) = inr () →
     rs = request_of cfg <$> mutations steps) ∧
    (∀ e, fst (execute cfg server steps tr) = inl e →
       DRY_RUN cfg = false ∧ (e = JSONDecodeError → DEBUG cfg = true) ∧
       rs ≠ []).
Proof.
  destruct (DRY_RUN cfg) eqn:Hdry.
  { destruct (execute_dry_run cfg server steps tr Hdry) as (Hres & Hsent & _).
    exists []. rewrite app_nil_r, Hres.
    split_and!; [done | apply prefix_nil | done | done]. }
  revert tr. induction steps as [|s steps IH]; intros tr.
  - exists []. simpl. rewrite app_nil_r.
    split_and!; [done | done | done | done].
  - rewrite execute_cons.
    pose proof (perform_live_sent s tr Hdry) as Hsent.
    pose proof (perform_failure s tr) as Hfail.
    change (s :: steps) with ([s] ++ steps). rewrite mutations_app, fmap_app.
    destruct (perform cfg server s tr) as [[e|[]] tr']; simpl in *.
    + exists (request_of cfg <$> mutations [s]).
      split_and!; [done | by apply prefix_app_r | done |].
      intros e' [= <-]. destruct (Hfail e eq_refl) as (_ & Hjson & i & ->).
      done.
    + destruct (IH tr') as (rs & Hrs & Hpre & Hall & Herr).
      exists ((request_of cfg <$> mutations [s]) ++ rs).
      split_and!.
      * by rewrite Hrs, Hsent, app_assoc.
      * by apply prefix_app.
      * intros _ Hok. by rewrite Hall.
      * intros e He. destruct (Herr e He) as (? & ? & Hne).
        split_and!; [done | done |]. by intros [_ ?]%app_eq_nil.
Qed.

(** With a server that never gives a usable answer, the run ends at its
    first mutation. *)
Lemma execute_fails_always steps tr :
  DRY_RUN cfg = false → fails_always cfg server →
  sent (snd (execute cfg server steps tr))
  = sent tr ++ take 1 (request_of cfg <$> mutations steps) ∧
  (mutations steps ≠ [] → ∃ e, fst (execute cfg server steps tr) = inl e).
Proof.
  intros Hlive Hfails. revert tr.
  induction steps as [|s steps IH]; intros tr.
  - simpl. by rewrite app_nil_r.
  - rewrite execute_cons.
    pose proof (perform_live_sent s tr Hlive) as Hsent.
    destruct s as [i|name].
    + assert (∃ e tr', perform cfg server (Mutate i) tr = (inl e, tr'))
        as (e & tr' & Hp).
      { destruct i as [n ids|id n add rem]; unfold_step; rewrite Hlive; simpl.
        - match goal with |- context [server ?t ?r] =>
            destruct (Hfails t r) as [->|(Hdebug & resp & -> & Hjson)] end;
            simpl; [by eexists _, _|].
          rewrite Hdebug, Hjson. simpl. by eexists _, _.
        - destruct (0 <? length add)%nat, (0 <? length rem)%nat; simpl.
          all: match goal with |- context [server ?t ?r] =>
            destruct (Hfails t r) as [->|(Hdebug & resp & -> & Hjson)] end;
            simpl; [by eexists _, _|].
          all: rewrite Hdebug, Hjson; simpl; by eexists _, _. }
      rewrite Hp in *. simpl in *. split; [done | by exists e].
    + destruct (perform cfg server (Unchanged name) tr) as [[e|[]] tr'] eqn:Hp.
      * by destruct (perform_failure (Unchanged name) tr e) as (_ & _ & i & ?);
          [rewrite Hp|].
      * simpl in Hsent. rewrite app_nil_r in Hsent.
        destruct (IH tr') as [Hs He]. by rewrite <- Hsent.
Qed.

(** Steps that only report leave the requests alone and cannot fail. *)
Lemma execute_unchanged names tr :
  ∃ tr', execute cfg server (Unchanged <$> names) tr = (inr (), tr') ∧
    sent tr' = sent tr ∧
    unchanged_notices tr' = unchanged_notices tr ++ names.
Proof.
  revert tr. induction names as [|name names IH]; intros tr.
  - exists tr. by rewrite app_nil_r.
  - rewrite fmap_cons, execute_cons. unfold_step. simpl.
    destruct (IH ((tr ++ [Log INFO Separator])
                    ++ [Log INFO (NoChangesMsg name)]))
      as (tr' & -> & Hsent & Hnote).
    exists tr'. split; [done|]. rewrite Hsent, Hnote. by observe_log.
Qed.

(** What a step writes to the log when it ends normally. *)
Lemma perform_preview s tr :
  DRY_RUN cfg = true ∨ answers cfg server →
  ∃ tr', perform cfg server s tr = (inr (), tr') ∧
    logged_payloads tr'
    = logged_payloads tr ++ (req_json ∘ request_of cfg <$> mutations [s]) ∧
    logged_urls tr'
    = logged_urls tr ++ (req_url ∘ request_of cfg <$> mutations [s]).
Proof.
  intros Hmode. destruct (DRY_RUN cfg) eqn:Hdry.
  - destruct s as [[name ids|id name add rem]|name]; unfold_step;
      rewrite ?Hdry; simpl.
    + eexists. split; [done|]. by observe_log.
    + destruct (0 <? length add)%nat, (0 <? length rem)%nat; simpl;
        (eexists; split; [done|]; by observe_log).
    + eexists. split; [done|]. by observe_log.
  - destruct Hmode as [?|Hans]; [done|].
    destruct s as [[name ids|id name add rem]|name]; unfold_step;
      rewrite ?Hdry; simpl.
    + match goal with |- context [server ?t ?r] =>
        destruct (Hans t r) as (response & -> & Hjson) end. simpl.
      destruct (DEBUG cfg); simpl;
        [destruct Hjson as [body ->]; [done|]; simpl|].
      all: eexists; (split; [done|]); by observe_log.
    + destruct (0 <? length add)%nat, (0 <? length rem)%nat; simpl.
      all: match goal with |- context [server ?t ?r] =>
        destruct (Hans t r) as (response & -> & Hjson) end; simpl.
      all: destruct (DEBUG cfg); simpl;
        [destruct Hjson as [body ->]; [done|]; simpl|].
      all: eexists; (split; [done|]); by observe_log.
    + eexists. split; [done|]. by observe_log.
Qed.

Lemma execute_preview steps tr :
  DRY_RUN cfg = true ∨ answers cfg server →
  logged_payloads (snd (execute cfg server steps tr))
  = logged_payloads tr ++ (req_json ∘ request_of cfg <$> mutations steps) ∧
  logged_urls (snd (execute cfg server steps tr))
  = logged_urls tr ++ (req_url ∘ request_of cfg <$> mutations steps).
Proof.
  intros Hmode. revert tr. induction steps as [|s steps IH]; intros tr.
  - simpl. by rewrite !app_nil_r.
  - rewrite execute_cons.
    destruct (perform_preview s tr Hmode) as (tr' & -> & Hp & Hu).
    destruct (IH tr') as [Hp' Hu'].
    change (s :: steps) with ([s] ++ steps).
    rewrite mutations_app, !fmap_app, Hp', Hu', Hp, Hu.
    by rewrite !app_assoc.
Qed.
End more_runs.

Lemma update_payload_shape add rem :
  add ≠ [] ∨ rem ≠ [] →
  ∃ delta, update_payload add rem = UpdatePayload (Some delta) ∧
    delta_add delta = (match add with [] => None | _ => Some add end) ∧
    delta_rem delta = (match rem with [] => None | _ => Some rem end).
Proof.
  intros Hne. unfold update_payload.
  destruct add as [|a add], rem as [|b rem]; simpl;
    [by destruct Hne | by eexists..].
Qed.

Lemma sync_steps_in_sync okta_groups clickup_groups :
  NoDup (Dict.keys clickup_groups) →
  (∀ name wanted, (name, wanted) ∈ okta_groups →
     ∃ properties, Dict.get name clickup_groups = Some properties ∧
       ∀ x, x ∈ wanted ↔ x ∈ prop_members properties) →
  sync_steps okta_groups clickup_groups = Unchanged <$> Dict.keys okta_groups.
Proof.
  intros Hnd. unfold sync_steps, Dict.keys.
  induction okta_groups as [|[name wanted] okta_groups IH]; intros Hsame;
    [done|].
  cbn [flat_map]. rewrite !fmap_cons, IH.
  - destruct (Hsame name wanted) as (p & Hget & Hmem); [left|].
    rewrite steps_for_get, Hget by done. unfold update_steps.
    rewrite String.eqb_refl.
    assert (set_diff wanted (prop_members p) = []) as ->.
    { apply set_diff_nil. intros x. apply Hmem. }
    assert (set_diff (prop_members p) wanted = []) as ->.
    { apply set_diff_nil. intros x. apply Hmem. }
    done.
  - intros n w Hin. apply Hsame. by right.
Qed.

(** X14. Whatever the server does, the requests a run sends are an initial
    part of the requests of its plan, in plan order: nothing is sent that
    was not planned, and nothing is skipped or reordered. A live run that
    ends normally has sent them all. *)
Theorem sent_is_prefix_of_plan cfg server okta_groups users_of clickup_users
    groups :
  let run := sync_groups cfg server okta_groups users_of clickup_users groups []
  in
  sent (snd run)
    `prefix_of` (request_of cfg
                   <$> plan cfg okta_groups users_of clickup_users groups) ∧
  (DRY_RUN cfg = false → fst run = inr () →
   sent (snd run)
   = request_of cfg <$> plan cfg okta_groups users_of clickup_users groups).
Proof.
  intros run. unfold run. rewrite sync_groups_execute.
  destruct (execute_prefix cfg server
    (sync_steps
       (match_users (get_okta_groups cfg okta_groups users_of) clickup_users)
       (get_clickup_groups cfg groups)) []) as (rs & Hrs & Hpre & Hall & _).
  simpl in Hrs. rewrite Hrs. split; [done|].
  intros Hlive Hok. by apply Hall.
Qed.

Lemma sent_is_prefix_of_plan_witness :
  sent (snd (sync_groups (ex_cfg false) ex_unreachable_server ex_okta_groups
               ex_users_of ex_roster ex_groups []))
    `prefix_of`
    (request_of (ex_cfg false)
       <$> plan (ex_cfg false) ex_okta_groups ex_users_of ex_roster ex_groups).
Proof.
  apply (sent_is_prefix_of_plan (ex_cfg false) ex_unreachable_server
           ex_okta_groups ex_users_of ex_roster ex_groups).
Defined.

(** X15. The loop of [sync_groups] can only fail in a live run, after it
    has sent a request, and it can only fail to decode an answer when
    [DEBUG] is on. *)
Theorem run_failure_modes cfg server okta_groups users_of clickup_users
    groups e :
  let run := sync_groups cfg server okta_groups users_of clickup_users groups []
  in
  fst run = inl e →
  DRY_RUN cfg = false ∧
  (e = JSONDecodeError → DEBUG cfg = true) ∧
  sent (snd run) ≠ [].
Proof.
  intros run. unfold run. rewrite sync_groups_execute. intros He.
  destruct (execute_prefix cfg server
    (sync_steps
       (match_users (get_okta_groups cfg okta_groups users_of) clickup_users)
       (get_clickup_groups cfg groups)) []) as (rs & Hrs & _ & _ & Herr).
  destruct (Herr e He) as (Hlive & Hjson & Hne).
  split_and!; [done | done |]. simpl in Hrs. by rewrite Hrs.
Qed.

Lemma run_failure_modes_witness :
  DRY_RUN (ex_cfg false) = false ∧
  (JSONDecodeError = JSONDecodeError → DEBUG (ex_cfg false) = true) ∧
  sent (snd (sync_groups (ex_cfg false) ex_garbled_server ex_okta_groups
               ex_users_of ex_roster ex_groups [])) ≠ [].
Proof.
  apply (run_failure_modes (ex_cfg false) ex_garbled_server ex_okta_groups
           ex_users_of ex_roster ex_groups JSONDecodeError).
  vm_compute. reflexivity.
Defined.

(** X16. When every request raises, or is answered with a body that does
    not decode while [DEBUG] is on, a live run sends the first request of
    its plan and no other, and fails unless the plan is empty. *)
Theorem run_stops_at_first_failure cfg server okta_groups users_of
    clickup_users groups :
  DRY_RUN cfg = false →
  fails_always cfg server →
  let run := sync_groups cfg server okta_groups users_of clickup_users groups []
  in
  sent (snd run)
  = take 1 (request_of cfg
              <$> plan cfg okta_groups users_of clickup_users groups) ∧
  (plan cfg okta_groups users_of clickup_users groups ≠ [] →
   ∃ e, fst run = inl e).
Proof.
  intros Hlive Hfails run. unfold run. rewrite sync_groups_execute.
  apply (execute_fails_always cfg server _ [] Hlive Hfails).
Qed.

Lemma run_stops_at_first_failure_witness :
  DRY_RUN (ex_cfg false) = false ∧
  fails_always (ex_cfg false) ex_garbled_server ∧
  sent (snd (sync_groups (ex_cfg false) ex_garbled_server ex_okta_groups
               ex_users_of ex_roster ex_groups []))
  = take 1 (request_of (ex_cfg false)
              <$> plan (ex_cfg false) ex_okta_groups ex_users_of ex_roster
                    ex_groups).
Proof.
  assert (fails_always (ex_cfg false) ex_garbled_server) as Hfails.
  { intros tr r. right. split; [reflexivity|]. by eexists. }
  split; [reflexivity|]. split; [exact Hfails|].
  apply (run_stops_at_first_failure (ex_cfg false) ex_garbled_server
           ex_okta_groups ex_users_of ex_roster ex_groups eq_refl Hfails).
Defined.

(** X17. Every request of a run is of one of two shapes: a POST to the
    team's group URL whose payload is the name and the ids of a desired
    group that ClickUp lacks, or a PUT to the URL of the id of a ClickUp
    group with a desired name, whose payload has a ["members"] entry with an
    ["add"] or a ["rem"] list, none of them empty. *)
Theorem request_shapes cfg server okta_groups clickup_groups r :
  r ∈ sent (snd (sync_loop cfg server okta_groups clickup_groups [])) →
  (req_method r = POST ∧ req_url r = create_url cfg ∧
   ∃ name ids, (name, ids) ∈ okta_groups ∧
     (name ∉ Dict.keys clickup_groups) ∧
     req_json r = CreatePayload name ids) ∨
  (req_method r = PUT ∧
   ∃ name properties delta,
     (name, properties) ∈ clickup_groups ∧ name ∈ Dict.keys okta_groups ∧
     req_url r = update_url cfg (prop_id properties) ∧
     req_json r = UpdatePayload (Some delta) ∧
     delta_add delta ≠ Some [] ∧ delta_rem delta ≠ Some [] ∧
     (is_Some (delta_add delta) ∨ is_Some (delta_rem delta))).
Proof.
  intros Hr. rewrite sync_loop_execute in Hr.
  apply execute_sent in Hr as [Hr|Hr]; [by apply elem_of_nil in Hr|].
  apply list_elem_of_fmap in Hr as (i & -> & Hi).
  change (i ∈ diff okta_groups clickup_groups) in Hi.
  apply elem_of_diff in Hi as (name & wanted & Hin & Hcase).
  destruct Hcase as [[-> Habs]|(p & Hp & -> & Hne)]; simpl.
  - left. split_and!; [done | done |]. by exists name, wanted.
  - right. split; [done|].
    destruct (update_payload_shape _ _ Hne) as (delta & Hd & Ha & Hr).
    exists name, p, delta. split_and!; [done| |done|done| | |].
    + unfold Dict.keys. by apply (list_elem_of_fmap_2 fst) in Hin.
    + rewrite Ha. by destruct (set_diff wanted _).
    + rewrite Hr. by destruct (set_diff _ wanted).
    + rewrite Ha, Hr.
      destruct (set_diff wanted _), (set_diff _ wanted).
      * by destruct Hne.
      * right. by eexists.
      * left. by eexists.
      * left. by eexists.
Qed.

Lemma request_shapes_witness :
  let r := {| req_method := PUT;
              req_url := update_url (ex_cfg false) "g-front";
              req_json := UpdatePayload
                (Some {| delta_add := Some [13]; delta_rem := Some [15] |}) |}
  in
  r ∈ sent (snd (sync_loop (ex_cfg false) ex_ok_server ex_desired ex_existing
                   [])) ∧
  ((req_method r = POST ∧ req_url r = create_url (ex_cfg false) ∧
    ∃ name ids, (name, ids) ∈ ex_desired ∧
      (name ∉ Dict.keys ex_existing) ∧ req_json r = CreatePayload name ids) ∨
   (req_method r = PUT ∧
    ∃ name properties delta,
      (name, properties) ∈ ex_existing ∧ name ∈ Dict.keys ex_desired ∧
      req_url r = update_url (ex_cfg false) (prop_id properties) ∧
      req_json r = UpdatePayload (Some delta) ∧
      delta_add delta ≠ Some [] ∧ delta_rem delta ≠ Some [] ∧
      (is_Some (delta_add delta) ∨ is_Some (delta_rem delta)))).
Proof.
  intros r.
  assert (r ∈ sent (snd (sync_loop (ex_cfg false) ex_ok_server ex_desired
                           ex_existing []))) as Hr.
  { apply (bool_decide_unpack _). vm_compute. exact I. }
  split; [exact Hr|].
  apply (request_shapes (ex_cfg false) ex_ok_server ex_desired ex_existing r Hr).
Defined.

(** X18. When every desired group exists in ClickUp with the same set of
    members, a run sends no request, dry or live, cannot fail whatever the
    server would do, and reports each desired group as unchanged, in order. *)
Theorem in_sync_run_sends_nothing cfg server okta_groups clickup_groups :
  NoDup (Dict.keys clickup_groups) →
  (∀ name wanted, (name, wanted) ∈ okta_groups →
     ∃ properties, Dict.get name clickup_groups = Some properties ∧
       ∀ x, x ∈ wanted ↔ x ∈ prop_members properties) →
  let run := sync_loop cfg server okta_groups clickup_groups [] in
  fst run = inr () ∧
  sent (snd run) = [] ∧
  unchanged_notices (snd run) = Dict.keys okta_groups.
Proof.
  intros Hnd Hsame run. unfold run.
  rewrite sync_loop_execute, sync_steps_in_sync by done.
  destruct (execute_unchanged cfg server (Dict.keys okta_groups) [])
    as (tr' & -> & Hsent & Hnote).
  done.
Qed.

Lemma in_sync_run_sends_nothing_witness :
  let okta := [("ops-core", [14; 14])] in
  let run := sync_loop (ex_cfg false) ex_unreachable_server okta ex_existing []
  in
  fst run = inr () ∧ sent (snd run) = [] ∧
  unchanged_notices (snd run) = Dict.keys okta.
Proof.
  apply (in_sync_run_sends_nothing (ex_cfg false) ex_unreachable_server
           [("ops-core", [14; 14])] ex_existing).
  - apply (bool_decide_unpack _). vm_compute. exact I.
  - intros name wanted Hin. apply list_elem_of_singleton in Hin.
    injection Hin as -> ->.
    exists {| prop_id := "g-ops"; prop_members := [14] |}.
    split; [vm_compute; reflexivity|].
    intros x. simpl. rewrite !elem_of_cons. tauto.
Defined.

(** X19. In a dry run, and in a live run whose requests are all answered
    with a body that decodes (any body when [DEBUG] is off), the loop of
    [sync_groups] logs, in plan order, the payload and the URL of every
    mutation of the plan: the dry run previews exactly the requests such a
    live run sends. *)
Theorem log_previews_requests cfg server okta_groups users_of clickup_users
    groups :
  DRY_RUN cfg = true ∨ answers cfg server →
  let run := sync_groups cfg server okta_groups users_of clickup_users groups []
  in
  let requests :=
    request_of cfg <$> plan cfg okta_groups users_of clickup_users groups in
  logged_payloads (snd run) = req_json <$> requests ∧
  logged_urls (snd run) = req_url <$> requests.
Proof.
  intros Hmode run requests. unfold run, requests.
  rewrite sync_groups_execute, <- !list_fmap_compose.
  apply (execute_preview cfg server _ [] Hmode).
Qed.

Lemma log_previews_requests_witness :
  (DRY_RUN (ex_cfg true) = true ∨ answers (ex_cfg true) ex_unreachable_server)
  ∧ logged_payloads
      (snd (sync_groups (ex_cfg true) ex_unreachable_server ex_okta_groups
              ex_users_of ex_roster ex_groups []))
    = req_json <$>
        (request_of (ex_cfg true)
           <$> plan (ex_cfg true) ex_okta_groups ex_users_of ex_roster
                 ex_groups).
Proof.
  split; [left; reflexivity|].
  apply (log_previews_requests (ex_cfg true) ex_unreachable_server
           ex_okta_groups ex_users_of ex_roster ex_groups).
  left. reflexivity.
Defined.

(** ** The settings *)

Lemma split_on_nonempty sep s : split_on sep s ≠ [].
Proof.
  destruct s as [|c s]; simpl; [done|].
  destruct (Ascii.eqb c sep); [done|]. by destruct (split_on sep s).
Qed.

Lemma unset_or_empty_false value :
  unset_or_empty value = false ↔ ∃ s, value = Some s ∧ s ≠ "".
Proof.
  destruct value as [s|]; simpl.
  - rewrite String.eqb_neq. split; [by exists s | by intros (? & [= <-] & ?)].
  - split; [done | by intros (? & ? & _)].
Qed.

Lemma find_first {A} (f : A → bool) (l : list A) x :
  List.find f l = Some x ↔
  ∃ l1 l2, l = l1 ++ x :: l2 ∧ f x = true ∧ ∀ y, y ∈ l1 → f y = false.
Proof.
  induction l as [|a l IH]; simpl.
  - split; [done|]. intros (l1 & l2 & Hl & _). by destruct l1.
  - destruct (f a) eqn:Ha.
    + split.
      * intros [= <-]. exists [], l. split_and!; [done | done |].
        intros y Hy. by apply elem_of_nil in Hy.
      * intros (l1 & l2 & Hl & Hx & Hbefore). destruct l1 as [|b l1].
        -- by injection Hl as -> _.
        -- injection Hl as <- _. rewrite Hbefore in Ha; [done | left].
    + rewrite IH. split.
      * intros (l1 & l2 & -> & Hx & Hbefore). exists (a :: l1), l2.
        split_and!; [done | done |]. intros y Hy.
        apply elem_of_cons in Hy as [->|Hy]; [done | by apply Hbefore].
      * intros (l1 & l2 & Hl & Hx & Hbefore). destruct l1 as [|b l1].
        -- injection Hl as -> _. congruence.
        -- injection Hl as <- ->. exists l1, l2.
           split_and!; [done | done |]. intros y Hy. apply Hbefore. by right.
Qed.

Lemma find_nothing {A} (f : A → bool) (l : list A) :
  List.find f l = None ↔ ∀ y, y ∈ l → f y = false.
Proof.
  induction l as [|a l IH]; simpl.
  - split; [|done]. intros _ y Hy. by apply elem_of_nil in Hy.
  - destruct (f a) eqn:Ha.
    + split; [done|]. intros Hall. rewrite Hall in Ha; [done | left].
    + rewrite IH. split.
      * intros Hall y Hy.
        apply elem_of_cons in Hy as [->|Hy]; [done | by apply Hall].
      * intros Hall y Hy. apply Hall. by right.
Qed.

(** X20. The script starts exactly when the five checked variables are set
    and not empty; the two API tokens are not checked. *)
Theorem load_settings_succeeds strip getenv :
  (∃ cfg, load_settings strip getenv = inr cfg) ↔
  ∀ env_var, env_var ∈ checked_variables →
    ∃ s, getenv env_var = Some s ∧ s ≠ "".
Proof.
  unfold load_settings. split.
  - intros [cfg Hload] env_var Hin.
    destruct (getenv "OKTA_GROUP_PREFIXES") as [prefixes|]; [|done].
    destruct (List.find _ checked_variables) as [bad|] eqn:Hfind; [done|].
    apply unset_or_empty_false. revert env_var Hin.
    by apply find_nothing.
  - intros Hall.
    destruct (Hall "OKTA_GROUP_PREFIXES") as (prefixes & -> & _).
    { apply (bool_decide_unpack _). vm_compute. exact I. }
    assert (List.find (λ env_var, unset_or_empty (getenv env_var))
              checked_variables = None) as ->; [|by eexists].
    apply find_nothing. intros env_var Hin.
    apply unset_or_empty_false. by apply Hall.
Qed.

(** X21. A missing [OKTA_GROUP_PREFIXES] stops the script with an
    [AttributeError], before any variable is checked. Otherwise the error
    names the first checked variable, in the order of the check, that is
    missing or empty; so [OKTA_GROUP_PREFIXES] is only named when it is set
    to the empty string. *)
Theorem load_settings_errors strip getenv :
  (load_settings strip getenv = inl AttributeError ↔
   getenv "OKTA_GROUP_PREFIXES" = None) ∧
  (∀ env_var,
     load_settings strip getenv = inl (NameError env_var) ↔
     getenv "OKTA_GROUP_PREFIXES" ≠ None ∧
     ∃ before after,
       checked_variables = before ++ env_var :: after ∧
       unset_or_empty (getenv env_var) = true ∧
       ∀ earlier, earlier ∈ before →
         unset_or_empty (getenv earlier) = false) ∧
  (load_settings strip getenv = inl (NameError "OKTA_GROUP_PREFIXES") →
   getenv "OKTA_GROUP_PREFIXES" = Some "").
Proof.
  assert (∀ env_var,
     load_settings strip getenv = inl (NameError env_var) ↔
     getenv "OKTA_GROUP_PREFIXES" ≠ None ∧
     ∃ before after,
       checked_variables = before ++ env_var :: after ∧
       unset_or_empty (getenv env_var) = true ∧
       ∀ earlier, earlier ∈ before →
         unset_or_empty (getenv earlier) = false) as Hname.
  { intros env_var. unfold load_settings.
    destruct (getenv "OKTA_GROUP_PREFIXES") as [prefixes|] eqn:Hp.
    - pose proof (find_first (λ v, unset_or_empty (getenv v))
                    checked_variables env_var) as Hfirst.
      cbv beta in Hfirst. rewrite <- Hfirst. clear Hfirst.
      destruct (List.find _ checked_variables) as [bad|]; split.
      + intros [= ->]. done.
      + intros [_ [= ->]]. done.
      + done.
      + by intros [_ ?].
    - split; [done | by intros [? _]]. }
  split_and!; [|done|].
  - unfold load_settings.
    destruct (getenv "OKTA_GROUP_PREFIXES") as [prefixes|]; [|done].
    by destruct (List.find _ checked_variables).
  - intros Hload. apply Hname in Hload as (Hset & _ & _ & _ & Hempty & _).
    destruct (getenv "OKTA_GROUP_PREFIXES") as [s|]; [|done].
    simpl in Hempty. by apply String.eqb_eq in Hempty as ->.
Qed.

Lemma load_settings_errors_witness :
  let getenv := λ env_var,
    if String.eqb env_var "OKTA_GROUP_PREFIXES" then Some ""
    else ex_getenv env_var in
  load_settings id getenv = inl (NameError "OKTA_GROUP_PREFIXES") ∧
  getenv "OKTA_GROUP_PREFIXES" = Some "".
Proof.
  intros getenv.
  assert (load_settings id getenv = inl (NameError "OKTA_GROUP_PREFIXES"))
    as Hload by (vm_compute; reflexivity).
  split; [exact Hload|].
  apply (load_settings_errors id getenv). exact Hload.
Defined.

(** X22. The settings of a script that starts: the list of prefixes holds
    the stripped pieces of [OKTA_GROUP_PREFIXES] between its commas and is
    never empty, and the ClickUp URL, the team id and the e-mail domain are
    the values of their variables, none of them empty. *)
Theorem load_settings_values strip getenv cfg :
  load_settings strip getenv = inr cfg →
  (∃ prefixes, getenv "OKTA_GROUP_PREFIXES" = Some prefixes ∧
     OKTA_GROUP_PREFIXES cfg = strip <$> split_on comma prefixes) ∧
  OKTA_GROUP_PREFIXES cfg ≠ [] ∧
  getenv "CLICKUP_BASE_URL" = Some (CLICKUP_BASE_URL cfg) ∧
  getenv "CLICKUP_TEAM_ID" = Some (CLICKUP_TEAM_ID cfg) ∧
  getenv "EMAIL_DOMAIN" = Some (EMAIL_DOMAIN cfg) ∧
  CLICKUP_BASE_URL cfg ≠ "" ∧ CLICKUP_TEAM_ID cfg ≠ "" ∧ EMAIL_DOMAIN cfg ≠ "".
Proof.
  unfold load_settings. intros Hload.
  destruct (getenv "OKTA_GROUP_PREFIXES") as [prefixes|]; [|done].
  destruct (List.find _ checked_variables) as [bad|] eqn:Hfind; [done|].
  assert (∀ env_var, env_var ∈ checked_variables →
            ∃ s, getenv env_var = Some s ∧ s ≠ "") as Hall.
  { intros env_var Hin. apply unset_or_empty_false. revert env_var Hin.
    by apply find_nothing. }
  destruct (Hall "CLICKUP_BASE_URL") as (url & Hurl & ?).
  { apply (bool_decide_unpack _). vm_compute. exact I. }
  destruct (Hall "CLICKUP_TEAM_ID") as (team & Hteam & ?).
  { apply (bool_decide_unpack _). vm_compute. exact I. }
  destruct (Hall "EMAIL_DOMAIN") as (domain & Hdomain & ?).
  { apply (bool_decide_unpack _). vm_compute. exact I. }
  injection Hload as <-. simpl. rewrite Hurl, Hteam, Hdomain. simpl.
  split_and!; [by eexists | | done..].
  intros E. apply fmap_nil_inv in E. by apply split_on_nonempty in E.
Qed.

Lemma load_settings_values_witness :
  ∃ cfg, load_settings id ex_getenv = inr cfg ∧
         OKTA_GROUP_PREFIXES cfg = ["eng-"; "ops-"] ∧
         OKTA_GROUP_PREFIXES cfg ≠ [].
Proof.
  eexists. split; [vm_compute; reflexivity|]. split; [reflexivity|].
  eapply (load_settings_values id ex_getenv). vm_compute. reflexivity.
Defined.

(** X23. Splitting at a separator loses nothing: the pieces, joined with
    the separator, give the string back; there is at least one piece, and
    no piece holds the separator. *)
Theorem split_on_join sep s :
  String.concat (String sep "") (split_on sep s) = s ∧
  split_on sep s ≠ [] ∧
  (∀ piece, piece ∈ split_on sep s → sep ∉ String.list_ascii_of_string piece).
Proof.
  split_and!; [|apply split_on_nonempty|].
  - induction s as [|c s IH]; [done|]. simpl.
    pose proof (split_on_nonempty sep s) as Hne.
    destruct (Ascii.eqb_spec c sep) as [->|Hc].
    + destruct (split_on sep s) as [|word words]; [done|].
      change (String.concat (String sep "") ("" :: word :: words))
        with (String sep (String.concat (String sep "") (word :: words))).
      by rewrite IH.
    + destruct (split_on sep s) as [|word words]; [done|].
      destruct words as [|word' words]; simpl in *; [by rewrite IH|].
      by rewrite string_app_cons, IH.
  - induction s as [|c s IH]; simpl.
    + intros piece Hin. apply list_elem_of_singleton in Hin as ->.
      apply not_elem_of_nil.
    + destruct (Ascii.eqb_spec c sep) as [->|Hc].
      * intros piece Hin. apply elem_of_cons in Hin as [->|Hin];
          [apply not_elem_of_nil | by apply IH].
      * destruct (split_on sep s) as [|word words].
        -- intros piece Hin. apply list_elem_of_singleton in Hin as ->.
           simpl. rewrite not_elem_of_cons. split; [done|].
           apply not_elem_of_nil.
        -- intros piece Hin. apply elem_of_cons in Hin as [->|Hin].
           ++ simpl. rewrite not_elem_of_cons. split; [done|].
              apply IH. left.
           ++ apply IH. by right.
Qed.
